(** * Command Dictionary: the grouping tree and its projection

    A shallow embedding of the tree provider of the Command Dictionary
    extension (the variant with multi-level groups: [buildGroupTree],
    [findGroup], [createGroupNodes], [parseGroupSegments], [getChildren],
    [getConfiguredCommands], [loadDefaultCommands], [isCommandConfig] and the
    [commandDictionary.insert] command), followed by the properties proved
    about it.  The earlier revision of the provider, with one level of
    groups, is embedded next to it for comparison.

    Conventions of the model.
    - A JavaScript string is the list of its UTF-16 code units; [lit] turns
      a Rocq string literal into such a list.
    - A JavaScript [Map] is an association list in insertion order: [Map.set]
      on a present key keeps the key's position, on a new key appends.
    - [String.prototype.localeCompare] with [sensitivity: 'base'] depends on
      the host's collation data; it is a parameter [localeCompare] of the
      development.  [Array.prototype.sort] is the stable sort it is required
      to be, written as a stable insertion sort. *)

From Stdlib Require Import List NArith ZArith Bool String Ascii Lia.
From Stdlib Require Import Sorting.Sorted Sorting.Permutation.
Import ListNotations.

Set Implicit Arguments.
Set Warnings "-register-all".

(** ** Strings *)

Definition codeUnit := N.
Definition jsstring := list codeUnit.

Definition lit (s : string) : jsstring :=
  List.map N_of_ascii (list_ascii_of_string s).
Arguments lit s%_string.

Fixpoint str_eqb (a b : jsstring) : bool :=
  match a, b with
  | [], [] => true
  | x :: a', y :: b' => N.eqb x y && str_eqb a' b'
  | _, _ => false
  end.

Fixpoint path_eqb (p q : list jsstring) : bool :=
  match p, q with
  | [], [] => true
  | x :: p', y :: q' => str_eqb x y && path_eqb p' q'
  | _, _ => false
  end.

(** The code unit of ['/']. *)
Definition SLASH : codeUnit := 47%N.

(** [s.split('/')]: the pieces between separators; the empty string gives
    one empty piece. *)
Fixpoint split (sep : codeUnit) (s : jsstring) : list jsstring :=
  match s with
  | [] => [[]]
  | c :: r =>
      if N.eqb c sep then [] :: split sep r
      else match split sep r with
           | [] => [[c]]
           | p :: ps => (c :: p) :: ps
           end
  end.

(** [l.join(sep)]. *)
Fixpoint join (sep : jsstring) (l : list jsstring) : jsstring :=
  match l with
  | [] => []
  | x :: r =>
      match r with
      | [] => x
      | _ :: _ => x ++ sep ++ join sep r
      end
  end.

(** ECMAScript WhiteSpace and LineTerminator code units, the set that
    [String.prototype.trim] strips. *)
Definition isWhiteSpace (c : codeUnit) : bool :=
  ((9 <=? c) && (c <=? 13) || (c =? 32) || (c =? 160) || (c =? 5760)
   || (8192 <=? c) && (c <=? 8202) || (c =? 8232) || (c =? 8233)
   || (c =? 8239) || (c =? 8287) || (c =? 12288) || (c =? 65279))%N.

Fixpoint trimStart (s : jsstring) : jsstring :=
  match s with
  | [] => []
  | c :: r => if isWhiteSpace c then trimStart r else s
  end.

Definition trimEnd (s : jsstring) : jsstring := rev (trimStart (rev s)).

Definition trim (s : jsstring) : jsstring := trimEnd (trimStart s).

(** ** Command records and tree items *)

Record CommandConfig := mkCommand {
  label : jsstring;
  insertText : jsstring;
  description : option jsstring;
  group : option jsstring
}.

(** The items handed to the host: [CommandNode] and [GroupNode] are the two
    classes of the source, [OtherItem] is any other [vscode.TreeItem]. *)
Inductive TreeItem :=
| CommandNode (cmd : CommandConfig)
| GroupNode (labelText : jsstring) (segments : list jsstring) (isUngrouped : bool)
| OtherItem (itemLabel : jsstring).

Definition UNGROUPED_LABEL : jsstring := lit "Ungrouped".
Definition UNGROUPED_ID : jsstring := lit "__commandDictionaryUngrouped__".

(** [a || b] on strings: the empty string is falsy. *)
Definition orElse (a b : jsstring) : jsstring :=
  match a with [] => b | _ :: _ => a end.

(** The [id] a tree item exposes; only [GroupNode] sets one. *)
Definition itemId (it : TreeItem) : option jsstring :=
  match it with
  | GroupNode labelText segments isUngrouped =>
      Some (if isUngrouped then UNGROUPED_ID
            else orElse (join [SLASH] segments) labelText)
  | _ => None
  end.

Definition itemLabel (it : TreeItem) : jsstring :=
  match it with
  | CommandNode cmd => label cmd
  | GroupNode labelText _ _ => labelText
  | OtherItem l => l
  end.

Definition itemDescription (it : TreeItem) : option jsstring :=
  match it with
  | CommandNode cmd => description cmd
  | _ => None
  end.

(** The arguments of the [commandDictionary.insert] command attached to a
    leaf. *)
Definition itemArguments (it : TreeItem) : list jsstring :=
  match it with
  | CommandNode cmd => [insertText cmd]
  | _ => []
  end.

(** ** The grouping tree *)

Inductive CommandGroupTree := mkTree {
  t_label : jsstring;
  t_segments : list jsstring;
  subgroups : list (jsstring * CommandGroupTree);
  commands : list CommandConfig
}.

Section MapOps.
Variable V : Type.

Fixpoint map_get (k : jsstring) (m : list (jsstring * V)) : option V :=
  match m with
  | [] => None
  | (k', v) :: r => if str_eqb k k' then Some v else map_get k r
  end.

Fixpoint map_set (k : jsstring) (v : V) (m : list (jsstring * V))
  : list (jsstring * V) :=
  match m with
  | [] => [(k, v)]
  | (k', v') :: r =>
      if str_eqb k k' then (k', v) :: r else (k', v') :: map_set k v r
  end.

Definition map_values (m : list (jsstring * V)) : list V := List.map snd m.
Definition map_keys (m : list (jsstring * V)) : list jsstring := List.map fst m.
End MapOps.

Definition parseGroupSegments (group : option jsstring) : list jsstring :=
  match group with
  | None => []
  | Some [] => []
  | Some g =>
      filter (fun part => (0 <? List.length part)%nat)
             (List.map trim (split SLASH g))
  end.

Definition pushCommand (node : CommandGroupTree) (cmd : CommandConfig)
  : CommandGroupTree :=
  mkTree (t_label node) (t_segments node) (subgroups node)
         (commands node ++ [cmd]).

(** The inner loop of [buildGroupTree]: walk from [node] along
    [pathSegments], creating the nodes that are missing, and push [cmd] at the
    end of the walk.  The source mutates the nodes it walks through; here the
    updated node is put back under its key, which [Map.set] does in place. *)
Fixpoint walkAndPush (node : CommandGroupTree) (currentPath : list jsstring)
    (pathSegments : list jsstring) (cmd : CommandConfig) : CommandGroupTree :=
  match pathSegments with
  | [] => pushCommand node cmd
  | segment :: rest =>
      let currentPath' := currentPath ++ [segment] in
      let next :=
        match map_get segment (subgroups node) with
        | Some n => n
        | None => mkTree segment currentPath' [] []
        end in
      mkTree (t_label node) (t_segments node)
             (map_set segment (walkAndPush next currentPath' rest cmd)
                      (subgroups node))
             (commands node)
  end.

Definition emptyRoot : CommandGroupTree := mkTree [] [] [] [].

Definition addCommand (root : CommandGroupTree) (cmd : CommandConfig)
  : CommandGroupTree :=
  let pathSegments := parseGroupSegments (group cmd) in
  if (List.length pathSegments =? 0)%nat then pushCommand root cmd
  else walkAndPush root [] pathSegments cmd.

Definition buildGroupTree (items : list CommandConfig) : CommandGroupTree :=
  fold_left addCommand items emptyRoot.

Fixpoint findGroup (tree : CommandGroupTree) (segments : list jsstring)
  : option CommandGroupTree :=
  match segments with
  | [] => Some tree
  | segment :: rest =>
      match map_get segment (subgroups tree) with
      | None => None
      | Some node => findGroup node rest
      end
  end.

(** ** Sorting and the projection *)

Section Sorting.
Variable A : Type.
Variable compareFn : A -> A -> Z.

(** [x] goes before the first element it does not come after. *)
Fixpoint sort_insert (x : A) (l : list A) : list A :=
  match l with
  | [] => [x]
  | y :: r =>
      if (compareFn x y <=? 0)%Z then x :: l else y :: sort_insert x r
  end.

Fixpoint sort (l : list A) : list A :=
  match l with
  | [] => []
  | x :: r => sort_insert x (sort r)
  end.
End Sorting.

(** A value found at one configuration scope.  The declared type is a list
    of commands, but the settings file is free-form JSON and the source
    tests [Array.isArray]. *)
Inductive ConfigValue :=
| ArrayValue (cmds : list CommandConfig)
| NonArrayValue.

(** The result of [cfg.inspect('commands')], the six values the source
    reads; [None] is [undefined]. *)
Record Inspection := mkInspection {
  workspaceFolderLanguageValue : option ConfigValue;
  workspaceLanguageValue : option ConfigValue;
  globalLanguageValue : option ConfigValue;
  workspaceFolderValue : option ConfigValue;
  workspaceValue : option ConfigValue;
  globalValue : option ConfigValue
}.

Definition candidates (inspected : Inspection) : list (option ConfigValue) :=
  [ workspaceFolderLanguageValue inspected;
    workspaceLanguageValue inspected;
    globalLanguageValue inspected;
    workspaceFolderValue inspected;
    workspaceValue inspected;
    globalValue inspected ].

(** The loop over [candidates]: the first one that is not [undefined]
    decides. *)
Fixpoint firstDefined (defaultCommands : list CommandConfig)
    (cs : list (option ConfigValue)) : list CommandConfig :=
  match cs with
  | [] => defaultCommands
  | None :: r => firstDefined defaultCommands r
  | Some (ArrayValue cmds) :: _ => cmds
  | Some NonArrayValue :: _ => defaultCommands
  end.

Definition getConfiguredCommands (defaultCommands : list CommandConfig)
    (inspected : option Inspection) : list CommandConfig :=
  match inspected with
  | None => defaultCommands
  | Some i => firstDefined defaultCommands (candidates i)
  end.

Section Provider.
(** [a.localeCompare(b, undefined, { sensitivity: 'base' })]. *)
Variable localeCompare : jsstring -> jsstring -> Z.

Definition createGroupNodes (groups : list (jsstring * CommandGroupTree))
  : list TreeItem :=
  List.map (fun g => GroupNode (t_label g) (t_segments g) false)
    (sort (fun a b => localeCompare (t_label a) (t_label b))
          (map_values groups)).

(** [getChildren] once the configured commands have been read. *)
Definition getChildrenOf (items : list CommandConfig)
    (element : option TreeItem) : list TreeItem :=
  let tree := buildGroupTree items in
  match element with
  | None =>
      if (List.length (subgroups tree) =? 0)%nat
      then List.map CommandNode (commands tree)
      else
        let rootGroups := createGroupNodes (subgroups tree) in
        if (0 <? List.length (commands tree))%nat
        then GroupNode UNGROUPED_LABEL [] true :: rootGroups
        else rootGroups
  | Some (GroupNode _ segments isUngrouped) =>
      if isUngrouped then List.map CommandNode (commands tree)
      else
        match findGroup tree segments with
        | None => []
        | Some g =>
            createGroupNodes (subgroups g)
            ++ List.map CommandNode (commands g)
        end
  | Some _ => []
  end.

Definition getChildren (defaultCommands : list CommandConfig)
    (inspected : option Inspection) (element : option TreeItem)
  : list TreeItem :=
  getChildrenOf (getConfiguredCommands defaultCommands inspected) element.
End Provider.

(** ** The default bundle *)

(** A parsed JSON value.  The fields of an object are listed with distinct
    keys, as [JSON.parse] leaves them.  Of a number only its being zero is
    ever looked at, and an integer stands for it. *)
Inductive JSON :=
| JNull
| JBool (b : bool)
| JNumber (n : Z)
| JString (s : jsstring)
| JArray (elements : list JSON)
| JObject (fields : list (jsstring * JSON)).

Inductive JSType := TObject | TBoolean | TNumber | TString | TUndefined.

Definition typeofValue (v : JSON) : JSType :=
  match v with
  | JNull | JArray _ | JObject _ => TObject
  | JBool _ => TBoolean
  | JNumber _ => TNumber
  | JString _ => TString
  end.

Definition typeofProperty (v : option JSON) : JSType :=
  match v with
  | None => TUndefined
  | Some x => typeofValue x
  end.

Definition JSType_eqb (a b : JSType) : bool :=
  match a, b with
  | TObject, TObject | TBoolean, TBoolean | TNumber, TNumber
  | TString, TString | TUndefined, TUndefined => true
  | _, _ => false
  end.

(** [!value]. *)
Definition falsy (v : JSON) : bool :=
  match v with
  | JNull => true
  | JBool b => negb b
  | JNumber n => (n =? 0)%Z
  | JString s => (List.length s =? 0)%nat
  | JArray _ | JObject _ => false
  end.

(** [candidate.label] and the like on a parsed value: an object answers
    with its field, an array has no such property. *)
Definition getProperty (v : JSON) (key : jsstring) : option JSON :=
  match v with
  | JObject fields => map_get key fields
  | _ => None
  end.

Definition isCommandConfig (value : JSON) : bool :=
  if falsy value || negb (JSType_eqb (typeofValue value) TObject) then false
  else JSType_eqb (typeofProperty (getProperty value (lit "label"))) TString
       && JSType_eqb (typeofProperty (getProperty value (lit "insertText"))) TString.

(** Statements that may throw. *)
Inductive Completion (A : Type) :=
| Normal (a : A)
| Throw (error : jsstring).
Arguments Normal {A} a.
Arguments Throw {A} error.

Definition bindC {A B : Type} (c : Completion A) (k : A -> Completion B)
  : Completion B :=
  match c with
  | Normal a => k a
  | Throw e => Throw e
  end.

Inductive LogEntry :=
| ConsoleError (message : jsstring) (error : jsstring).

Section Loader.
(** The file system and the JSON parser of the host; either may throw. *)
Variable readFileSync : jsstring -> Completion jsstring.
Variable JSON_parse : jsstring -> Completion JSON.
Variable path_join : list jsstring -> jsstring.

(** The body of the [try] block: [Some] is a [return] from inside it,
    [None] is falling out of it. *)
Definition tryLoad (defaultsPath : jsstring)
  : Completion (option (list JSON)) :=
  bindC (readFileSync defaultsPath) (fun raw =>
  bindC (JSON_parse raw) (fun parsed =>
    match parsed with
    | JArray elements => Normal (Some (filter isCommandConfig elements))
    | _ => Normal None
    end)).

(** The completion of the call and what it wrote to the console. *)
Definition loadDefaultCommands (extensionPath : jsstring)
  : Completion (list JSON) * list LogEntry :=
  let defaultsPath :=
    path_join [extensionPath; lit "resources"; lit "defaultCommands.json"] in
  match tryLoad defaultsPath with
  | Normal (Some cmds) => (Normal cmds, [])
  | Normal None => (Normal [], [])
  | Throw error =>
      (Normal [],
       [ConsoleError (lit "commandDictionary: failed to load default commands")
                     error])
  end.
End Loader.

(** ** The insert command *)

Record Position := mkPosition { line : nat; character : nat }.

Definition Position_leb (a b : Position) : bool :=
  (line a <? line b)%nat
  || ((line a =? line b)%nat && (character a <=? character b)%nat).

Definition Position_eqb (a b : Position) : bool :=
  (line a =? line b)%nat && (character a =? character b)%nat.

(** A selection runs from its anchor to its active end, in either
    direction. *)
Record Selection := mkSelection { anchor : Position; active : Position }.

Definition sel_start (s : Selection) : Position :=
  if Position_leb (anchor s) (active s) then anchor s else active s.

Definition sel_end (s : Selection) : Position :=
  if Position_leb (anchor s) (active s) then active s else anchor s.

Definition isEmpty (s : Selection) : bool :=
  Position_eqb (sel_start s) (sel_end s).

(** The calls made on the edit builder. *)
Inductive EditOp :=
| Replace (range_start range_end : Position) (text : jsstring)
| Insert (location : Position) (text : jsstring).

Record TextEditor := mkEditor { selections : list Selection }.

(** What the command asks of the host. *)
Inductive Effect :=
| ShowInformationMessage (message : jsstring)
| EditorEdit (ops : list EditOp).

Definition NO_EDITOR_NOTICE : jsstring :=
  lit "Open a text editor to insert the command.".

Definition editFor (text : jsstring) (sel : Selection) : EditOp :=
  let insertAt := sel_start sel in
  if negb (isEmpty sel) then Replace (sel_start sel) (sel_end sel) text
  else Insert insertAt text.

Definition insertCommand (activeTextEditor : option TextEditor)
    (text : jsstring) : list Effect :=
  match activeTextEditor with
  | None => [ShowInformationMessage NO_EDITOR_NOTICE]
  | Some editor => [EditorEdit (List.map (editFor text) (selections editor))]
  end.

Section Host.
(** The buffer of the host and how it applies one batch of edits. *)
Variable Buffer : Type.
Variable applyEdit : Buffer -> list EditOp -> Buffer.

Definition runEffect (b : Buffer) (e : Effect) : Buffer :=
  match e with
  | ShowInformationMessage _ => b
  | EditorEdit ops => applyEdit b ops
  end.

Definition runEffects (b : Buffer) (es : list Effect) : Buffer :=
  fold_left runEffect es b.
End Host.

(** A concrete comparator used in the examples: code units compared after
    folding ASCII capitals to small letters. *)
Definition foldCase (c : codeUnit) : codeUnit :=
  if ((65 <=? c) && (c <=? 90))%N then (c + 32)%N else c.

Fixpoint ciCompare (a b : jsstring) : Z :=
  match a, b with
  | [], [] => 0
  | [], _ :: _ => -1
  | _ :: _, [] => 1
  | x :: a', y :: b' =>
      match N.compare (foldCase x) (foldCase y) with
      | Lt => -1
      | Gt => 1
      | Eq => ciCompare a' b'
      end
  end.

(** A record for the examples: label [l], insert text [l();], no
    description, group [g]. *)
Definition cmd0 (l : string) (g : option string) : CommandConfig :=
  mkCommand (lit l) (lit (l ++ "();")) None (option_map lit g).
Arguments cmd0 l%_string g%_string.


(** ** The earlier revision of the provider

    [src/extension.ts] is the provider before multi-level groups: a group is
    the trimmed group string as a whole, the root lists the group names in
    the default order of [Array.prototype.sort] (by code units), and the
    records without a group are filed under a header labelled "Ungrouped",
    which is looked up by that label.  It is embedded for comparison; the
    claims are about the revision with the grouping tree. *)

(** [a < b], [a > b] on strings: lexicographic on code units. *)
Fixpoint codeUnitCompare (a b : jsstring) : Z :=
  match a, b with
  | [], [] => 0
  | [], _ :: _ => -1
  | _ :: _, [] => 1
  | x :: a', y :: b' =>
      match N.compare x y with
      | Lt => -1
      | Gt => 1
      | Eq => codeUnitCompare a' b'
      end
  end.

Module Legacy.

Inductive TreeItem :=
| CommandNode (cmd : CommandConfig)
| GroupNode (labelText : jsstring)
| OtherItem (itemLabel : jsstring).

(** [c.group?.trim()]; the result is only tested for truth or used under
    [||], where [undefined] and the empty string behave alike. *)
Definition trimmedGroup (c : CommandConfig) : jsstring :=
  match group c with
  | None => []
  | Some g => trim g
  end.

Definition truthy (s : jsstring) : bool := (0 <? List.length s)%nat.

(** The keys of [groups] after the loop, in insertion order. *)
Definition groupKeys (items : list CommandConfig) : list jsstring :=
  fold_left
    (fun ks c =>
       let g := trimmedGroup c in
       if truthy g then (if existsb (str_eqb g) ks then ks else ks ++ [g])
       else ks)
    items [].

Definition hasGroup (items : list CommandConfig) : bool :=
  existsb (fun c => truthy (trimmedGroup c)) items.

Definition getChildren (items : list CommandConfig)
    (element : option TreeItem) : list TreeItem :=
  match element with
  | None =>
      if negb (hasGroup items) then List.map CommandNode items
      else
        let groupNames := sort codeUnitCompare (groupKeys items) in
        let ungrouped :=
          filter (fun i => negb (truthy (trimmedGroup i))) items in
        let nodes := List.map GroupNode groupNames in
        if (0 <? List.length ungrouped)%nat
        then GroupNode (lit "Ungrouped") :: nodes
        else nodes
  | Some (GroupNode elementLabel) =>
      List.map CommandNode
        (filter
           (fun i =>
              str_eqb (orElse (trimmedGroup i) (lit "Ungrouped")) elementLabel)
           items)
  | Some _ => []
  end.

End Legacy.

(** ** Reading the tree, and what the queries are compared with *)

(** The group path of a record. *)
Definition pathOf (cmd : CommandConfig) : list jsstring :=
  parseGroupSegments (group cmd).

Definition atPath (p : list jsstring) (cmd : CommandConfig) : bool :=
  path_eqb p (pathOf cmd).

(** The commands and the child keys of the node at path [p], nothing when
    there is no such node. *)
Definition cmdsAt (t : CommandGroupTree) (p : list jsstring)
  : list CommandConfig :=
  match findGroup t p with
  | Some g => commands g
  | None => []
  end.

Definition keysAt (t : CommandGroupTree) (p : list jsstring)
  : list jsstring :=
  match findGroup t p with
  | Some g => map_keys (subgroups g)
  | None => []
  end.

(** [isPrefix p segs]: [segs] starts with [p]. *)
Fixpoint isPrefix (p segs : list jsstring) : bool :=
  match p, segs with
  | [], _ => true
  | x :: p', y :: segs' => str_eqb x y && isPrefix p' segs'
  | _ :: _, [] => false
  end.

(** The segment of [segs] that follows [p], when [segs] is [p] and more. *)
Fixpoint nextSegment (p segs : list jsstring) : option jsstring :=
  match p, segs with
  | [], s :: _ => Some s
  | x :: p', y :: segs' => if str_eqb x y then nextSegment p' segs' else None
  | _, [] => None
  end.

Definition addKey (ks : list jsstring) (s : jsstring) : list jsstring :=
  if existsb (str_eqb s) ks then ks else ks ++ [s].

(** The distinct segments that follow [p] in the paths of [items], in the
    order of their first occurrence, after those of [acc]. *)
Definition childKeys (p : list jsstring) (items : list CommandConfig)
    (acc : list jsstring) : list jsstring :=
  fold_left
    (fun ks c =>
       match nextSegment p (pathOf c) with
       | Some s => addKey ks s
       | None => ks
       end)
    items acc.

(** The header item of the group at path [p]. *)
Definition headerFor (p : list jsstring) : TreeItem :=
  GroupNode (last p []) p false.

Definition ungroupedHeader : TreeItem := GroupNode UNGROUPED_LABEL [] true.

Fixpoint prefixesFrom (cp segs : list jsstring) : list (list jsstring) :=
  match segs with
  | [] => []
  | s :: r => (cp ++ [s]) :: prefixesFrom (cp ++ [s]) r
  end.

(** The headers one expands, from the root, to arrive at the group [segs]:
    for [A; B; C] the headers of [A], of [A; B] and of [A; B; C]. *)
Definition trailOf (segs : list jsstring) : list TreeItem :=
  List.map headerFor (prefixesFrom [] segs).

Definition isGroupNode (it : TreeItem) : bool :=
  match it with
  | GroupNode _ _ _ => true
  | _ => false
  end.

Definition hasRootLevel (items : list CommandConfig) : bool :=
  existsb (atPath []) items.

Definition hasGrouped (items : list CommandConfig) : bool :=
  existsb (fun c => negb (atPath [] c)) items.

Section Navigation.
Variable localeCompare : jsstring -> jsstring -> Z.
Variable items : list CommandConfig.

(** [Reach trail x]: the host obtains [x] by querying the root and then,
    one after the other, the headers of [trail], each of which it obtained
    from the query before. *)
Inductive Reach : list TreeItem -> TreeItem -> Prop :=
| Reach_root x :
    In x (getChildrenOf localeCompare items None) -> Reach [] x
| Reach_step trail h x :
    Reach trail h ->
    In x (getChildrenOf localeCompare items (Some h)) ->
    Reach (trail ++ [h]) x.

(** The one trail on which the leaf of [cmd] is expected. *)
Definition canonicalTrail (cmd : CommandConfig) : list TreeItem :=
  match pathOf cmd with
  | [] => if hasGrouped items then [ungroupedHeader] else []
  | segs => trailOf segs
  end.
End Navigation.

(** What every entry [(key, child)] of a node at path [cp] satisfies: the
    child is labelled with its key and carries its full path. *)
Definition entryOk (cp : list jsstring) (kv : jsstring * CommandGroupTree)
  : Prop :=
  t_label (snd kv) = fst kv /\ t_segments (snd kv) = cp ++ [fst kv].

Definition entriesOk (cp : list jsstring) (t : CommandGroupTree) : Prop :=
  forall p g, findGroup t p = Some g -> Forall (entryOk (cp ++ p)) (subgroups g).

(** A piece of a group string between two separators. *)
Definition noSlash (s : jsstring) : Prop := ~ In SLASH s.

(** A piece that [parseGroupSegments] discards: empty once trimmed. *)
Definition blank (piece : jsstring) : bool :=
  (List.length (trim piece) =? 0)%nat.

(** [a] may stand before [b] in a list sorted with [compareFn]. *)
Definition precedes (A : Type) (compareFn : A -> A -> Z) (a b : A) : Prop :=
  (compareFn a b <= 0)%Z.

(** ** What the further properties are stated with *)

(** All the records held in a tree: those of the node, then those of its
    subgroups, in the order of the map. *)
Fixpoint allCommands (t : CommandGroupTree) : list CommandConfig :=
  commands t
  ++ (fix inSubgroups (l : list (jsstring * CommandGroupTree)) :=
        match l with
        | [] => []
        | kv :: r => allCommands (snd kv) ++ inSubgroups r
        end) (subgroups t).

(** A string that does not start with white space. *)
Definition startsClean (s : jsstring) : Prop :=
  match s with
  | [] => True
  | c :: _ => isWhiteSpace c = false
  end.

Definition endsClean (s : jsstring) : Prop := startsClean (rev s).

(** A segment as [parseGroupSegments] produces them. *)
Definition validSegment (s : jsstring) : Prop :=
  s <> [] /\ noSlash s /\ startsClean s /\ endsClean s.

(** The records of the leaves of an answer, and the labels of its headers,
    in the order of the answer, for either revision. *)
Definition leafRecords (answer : list TreeItem) : list CommandConfig :=
  flat_map (fun it => match it with CommandNode c => [c] | _ => [] end)
           answer.

Definition headerLabels (answer : list TreeItem) : list jsstring :=
  flat_map
    (fun it => match it with GroupNode l _ _ => [l] | _ => [] end) answer.

Definition legacyLeafRecords (answer : list Legacy.TreeItem)
  : list CommandConfig :=
  flat_map
    (fun it => match it with Legacy.CommandNode c => [c] | _ => [] end)
    answer.

Definition legacyHeaderLabels (answer : list Legacy.TreeItem)
  : list jsstring :=
  flat_map
    (fun it => match it with Legacy.GroupNode l => [l] | _ => [] end)
    answer.

(** The tooltip of an item: the description of the record in the revision
    with the tree, its insert text in the earlier one; a header has none. *)
Definition itemTooltip (it : TreeItem) : option jsstring :=
  match it with
  | CommandNode cmd => description cmd
  | _ => None
  end.

Definition legacyTooltip (it : Legacy.TreeItem) : option jsstring :=
  match it with
  | Legacy.CommandNode cmd => Some (insertText cmd)
  | _ => None
  end.

(** The label under which the earlier revision files a record. *)
Definition legacyHeaderOf (c : CommandConfig) : jsstring :=
  orElse (Legacy.trimmedGroup c) (lit "Ungrouped").

(** [before a b l]: [a] stands in [l] at a place before one of [b]. *)
Inductive before (A : Type) (a b : A) : list A -> Prop :=
| before_here l : In b l -> before a b (a :: l)
| before_later x l : before a b l -> before a b (x :: l).

(** A piece of a group string written as white space, a core, white
    space. *)
Record Padded := mkPadded {
  pad_before : jsstring;
  pad_core : jsstring;
  pad_after : jsstring
}.

Definition padded (t : Padded) : jsstring :=
  pad_before t ++ pad_core t ++ pad_after t.

(** The paddings hold white space only; the core is empty or a segment. *)
Definition wellPadded (t : Padded) : Prop :=
  forallb isWhiteSpace (pad_before t) = true
  /\ forallb isWhiteSpace (pad_after t) = true
  /\ (pad_core t = [] \/ validSegment (pad_core t)).

(** * Properties *)

(** ** Equality tests *)

Lemma str_eqb_eq (a b : jsstring) : str_eqb a b = true <-> a = b.
Proof.
  revert b; induction a as [|x a IH]; intros [|y b]; simpl;
    try (split; [discriminate | discriminate]); try tauto.
  rewrite andb_true_iff, N.eqb_eq, IH.
  split; [intros [-> ->]; reflexivity | intros E; inversion E; auto].
Qed.

Lemma str_eqb_refl (a : jsstring) : str_eqb a a = true.
Proof. apply str_eqb_eq; reflexivity. Qed.

Lemma str_eqb_neq (a b : jsstring) : str_eqb a b = false <-> a <> b.
Proof.
  rewrite <- str_eqb_eq. destruct (str_eqb a b); split; congruence.
Qed.

Lemma path_eqb_eq (p q : list jsstring) : path_eqb p q = true <-> p = q.
Proof.
  revert q; induction p as [|x p IH]; intros [|y q]; simpl;
    try (split; [discriminate | discriminate]); try tauto.
  rewrite andb_true_iff, str_eqb_eq, IH.
  split; [intros [-> ->]; reflexivity | intros E; inversion E; auto].
Qed.

Lemma path_eqb_refl (p : list jsstring) : path_eqb p p = true.
Proof. apply path_eqb_eq; reflexivity. Qed.

Ltac str_cases a b :=
  let E := fresh "E" in
  destruct (str_eqb a b) eqn:E;
  [apply str_eqb_eq in E; try subst | try (apply str_eqb_neq in E)].

(** ** The association list as a map *)

Section MapFacts.
Variable V : Type.
Implicit Types (m : list (jsstring * V)) (k : jsstring) (v : V).

Lemma map_get_set_same k v m : map_get k (map_set k v m) = Some v.
Proof.
  induction m as [|[k' v'] m IH]; simpl.
  - now rewrite str_eqb_refl.
  - destruct (str_eqb k k') eqn:E; simpl; rewrite E; auto.
Qed.

Lemma map_get_set_other k k' v m :
  k <> k' -> map_get k' (map_set k v m) = map_get k' m.
Proof.
  intros N. induction m as [|[k0 v0] m IH]; simpl.
  - apply str_eqb_neq in N. destruct (str_eqb k' k) eqn:E; auto.
    apply str_eqb_eq in E. apply str_eqb_neq in N. congruence.
  - destruct (str_eqb k k0) eqn:E; simpl.
    + apply str_eqb_eq in E. subst k0.
      destruct (str_eqb k' k) eqn:E'; auto.
      apply str_eqb_eq in E'. congruence.
    + now rewrite IH.
Qed.

Lemma map_get_None_keys k m :
  map_get k m = None <-> ~ In k (map_keys m).
Proof.
  induction m as [|[k' v'] m IH]; simpl.
  - tauto.
  - destruct (str_eqb k k') eqn:E.
    + apply str_eqb_eq in E. subst. split; [discriminate | tauto].
    + apply str_eqb_neq in E. rewrite IH. intuition congruence.
Qed.

Lemma map_keys_set k v m :
  map_keys (map_set k v m)
  = if existsb (str_eqb k) (map_keys m) then map_keys m
    else map_keys m ++ [k].
Proof.
  induction m as [|[k' v'] m IH]; simpl.
  - reflexivity.
  - destruct (str_eqb k k') eqn:E; simpl.
    + reflexivity.
    + rewrite IH. now destruct (existsb (str_eqb k) (map_keys m)).
Qed.

Lemma existsb_keys_get k m :
  existsb (str_eqb k) (map_keys m)
  = match map_get k m with Some _ => true | None => false end.
Proof.
  induction m as [|[k' v'] m IH]; simpl; auto.
  destruct (str_eqb k k'); simpl; auto.
Qed.

Lemma Forall_map_set (P : jsstring * V -> Prop) k v m :
  Forall P m -> P (k, v) -> Forall P (map_set k v m).
Proof.
  intros Hm Hk. induction Hm as [|[k' v'] m Hx Hm IH]; simpl.
  - constructor; auto.
  - destruct (str_eqb k k') eqn:E.
    + apply str_eqb_eq in E. subst. constructor; auto.
    + constructor; auto.
Qed.
End MapFacts.

(** ** The stable sort *)

Section SortFacts.
Variable A : Type.
Variable compareFn : A -> A -> Z.

Lemma sort_insert_perm x l : Permutation (x :: l) (sort_insert compareFn x l).
Proof.
  induction l as [|y l IH]; simpl; auto.
  destruct (compareFn x y <=? 0)%Z; auto.
  rewrite perm_swap. now constructor.
Qed.

Lemma sort_perm l : Permutation l (sort compareFn l).
Proof.
  induction l as [|x l IH]; simpl; auto.
  rewrite <- sort_insert_perm. now constructor.
Qed.

Lemma sort_In x l : In x (sort compareFn l) <-> In x l.
Proof.
  split; apply Permutation_in;
    [apply Permutation_sym |]; apply sort_perm.
Qed.

Lemma sort_length l : List.length (sort compareFn l) = List.length l.
Proof. symmetry. apply Permutation_length, sort_perm. Qed.

Hypothesis total : forall a b, (compareFn a b <= 0 \/ compareFn b a <= 0)%Z.
Hypothesis trans :
  forall a b c, (compareFn a b <= 0 -> compareFn b c <= 0
                 -> compareFn a c <= 0)%Z.

Lemma sort_insert_sorted x l :
  StronglySorted (precedes compareFn) l
  -> StronglySorted (precedes compareFn) (sort_insert compareFn x l).
Proof.
  induction 1 as [|y l Hl IH Hy]; simpl.
  - repeat constructor.
  - destruct (compareFn x y <=? 0)%Z eqn:E.
    + apply Z.leb_le in E. constructor.
      * now constructor.
      * constructor; auto.
        eapply Forall_impl; [|exact Hy]. intros z Hz. eapply trans; eauto.
    + apply Z.leb_gt in E. constructor; auto.
      eapply Permutation_Forall; [apply sort_insert_perm|].
      constructor; auto.
      destruct (total x y); [lia | auto].
Qed.

Lemma sort_sorted l : StronglySorted (precedes compareFn) (sort compareFn l).
Proof.
  induction l; simpl; [constructor | now apply sort_insert_sorted].
Qed.
End SortFacts.

(** Sorting by a key and projecting the key is sorting the keys. *)
Lemma sort_map (A B : Type) (f : A -> B) (cmp : B -> B -> Z) (l : list A) :
  List.map f (sort (fun a b => cmp (f a) (f b)) l) = sort cmp (List.map f l).
Proof.
  induction l as [|x l IH]; simpl; auto.
  rewrite <- IH. generalize (sort (fun a b => cmp (f a) (f b)) l) as s.
  induction s as [|y s IHs]; simpl; auto.
  destruct (cmp (f x) (f y) <=? 0)%Z; simpl; congruence.
Qed.

(** ** One record added to the tree *)

Lemma addCommand_walk (root : CommandGroupTree) (cmd : CommandConfig) :
  addCommand root cmd = walkAndPush root [] (pathOf cmd) cmd.
Proof.
  unfold addCommand, pathOf.
  destruct (parseGroupSegments (group cmd)); reflexivity.
Qed.

Lemma walk_label t cp segs c : t_label (walkAndPush t cp segs c) = t_label t.
Proof. destruct segs; reflexivity. Qed.

Lemma walk_segments t cp segs c :
  t_segments (walkAndPush t cp segs c) = t_segments t.
Proof. destruct segs; reflexivity. Qed.

Lemma findGroup_fresh l sg p :
  p <> [] -> findGroup (mkTree l sg [] []) p = None.
Proof. destruct p; simpl; congruence. Qed.

Lemma cmdsAt_fresh l sg p : cmdsAt (mkTree l sg [] []) p = [].
Proof. destruct p; reflexivity. Qed.

Lemma keysAt_fresh l sg p : keysAt (mkTree l sg [] []) p = [].
Proof. destruct p; reflexivity. Qed.

Lemma cmdsAt_cons t s r :
  cmdsAt t (s :: r)
  = match map_get s (subgroups t) with Some n => cmdsAt n r | None => [] end.
Proof. unfold cmdsAt; simpl. destruct (map_get s (subgroups t)); auto. Qed.

Lemma keysAt_cons t s r :
  keysAt t (s :: r)
  = match map_get s (subgroups t) with Some n => keysAt n r | None => [] end.
Proof. unfold keysAt; simpl. destruct (map_get s (subgroups t)); auto. Qed.

(** The commands seen at [p] grow by [c] exactly when [p] is the path
    walked. *)
Lemma cmdsAt_walk segs : forall t cp c p,
  cmdsAt (walkAndPush t cp segs c) p
  = cmdsAt t p ++ (if path_eqb p segs then [c] else []).
Proof.
  induction segs as [|seg rest IH]; intros t cp c p.
  - destruct p as [|s r]; simpl.
    + reflexivity.
    + rewrite !cmdsAt_cons. simpl. now rewrite app_nil_r.
  - destruct p as [|s r].
    + simpl. unfold cmdsAt; simpl. now rewrite app_nil_r.
    + rewrite !cmdsAt_cons. cbn [walkAndPush subgroups path_eqb].
      str_cases s seg.
      * rewrite map_get_set_same, IH. simpl.
        destruct (map_get seg (subgroups t)); auto.
        now rewrite cmdsAt_fresh.
      * rewrite map_get_set_other by congruence. simpl.
        now rewrite app_nil_r.
Qed.

(** The child keys seen at [p] grow by the segment that follows [p] on the
    path walked, when it is new. *)
Lemma keysAt_walk segs : forall t cp c p,
  keysAt (walkAndPush t cp segs c) p
  = match nextSegment p segs with
    | Some s => addKey (keysAt t p) s
    | None => keysAt t p
    end.
Proof.
  induction segs as [|seg rest IH]; intros t cp c p.
  - destruct p as [|s r]; simpl.
    + reflexivity.
    + rewrite !keysAt_cons. reflexivity.
  - destruct p as [|s r].
    + cbn [nextSegment]. unfold keysAt; cbn [findGroup walkAndPush subgroups].
      apply map_keys_set.
    + rewrite !keysAt_cons. cbn [walkAndPush subgroups nextSegment].
      str_cases s seg.
      * rewrite map_get_set_same, IH.
        destruct (map_get seg (subgroups t)); auto.
        now rewrite keysAt_fresh.
      * rewrite map_get_set_other by congruence. reflexivity.
Qed.

(** A node exists at [p] afterwards when it existed before or [p] lies on
    the path walked. *)
Lemma findGroup_walk_None segs : forall t cp c p,
  findGroup (walkAndPush t cp segs c) p = None
  <-> findGroup t p = None /\ isPrefix p segs = false.
Proof.
  induction segs as [|seg rest IH]; intros t cp c p.
  - destruct p as [|s r]; simpl.
    + intuition discriminate.
    + tauto.
  - destruct p as [|s r].
    + simpl. intuition discriminate.
    + cbn [walkAndPush findGroup subgroups isPrefix].
      str_cases s seg.
      * rewrite map_get_set_same, IH. simpl.
        destruct (map_get seg (subgroups t)) as [n|].
        -- tauto.
        -- destruct r; simpl; intuition discriminate.
      * rewrite map_get_set_other by congruence. simpl. tauto.
Qed.

Lemma map_get_In (V : Type) (k : jsstring) (v : V) m :
  map_get k m = Some v -> In (k, v) m.
Proof.
  induction m as [|[k' v'] m IH]; simpl; [discriminate|].
  str_cases k k'.
  - intros [= ->]. now left.
  - auto.
Qed.

Lemma entriesOk_fresh cp l sg : entriesOk cp (mkTree l sg [] []).
Proof.
  intros [|s r] g; simpl; [intros [= <-]; constructor | discriminate].
Qed.

Lemma entriesOk_child cp t seg n :
  entriesOk cp t -> map_get seg (subgroups t) = Some n ->
  entriesOk (cp ++ [seg]) n.
Proof.
  intros H Hn q g Hq. rewrite <- app_assoc. simpl.
  apply (H (seg :: q)). simpl. now rewrite Hn.
Qed.

Lemma entriesOk_walk segs : forall t cp c,
  entriesOk cp t -> entriesOk cp (walkAndPush t cp segs c).
Proof.
  induction segs as [|seg rest IH]; intros t cp c H p g Hf.
  - destruct p as [|s r]; simpl in Hf.
    + injection Hf as <-. apply (H [] t). reflexivity.
    + apply (H (s :: r)). exact Hf.
  - destruct p as [|s r].
    + simpl in Hf. injection Hf as <-. cbn [subgroups].
      pose proof (H [] t eq_refl) as Hroot.
      apply Forall_map_set; [exact Hroot|].
      split; cbn [fst snd].
      * rewrite walk_label.
        destruct (map_get seg (subgroups t)) as [n|] eqn:En; [|reflexivity].
        apply map_get_In in En.
        rewrite Forall_forall in Hroot. apply (Hroot _ En).
      * rewrite walk_segments, app_nil_r.
        destruct (map_get seg (subgroups t)) as [n|] eqn:En; [|reflexivity].
        apply map_get_In in En.
        rewrite Forall_forall in Hroot. destruct (Hroot _ En) as [_ Hs].
        cbn [fst snd] in Hs. now rewrite app_nil_r in Hs.
    + cbn [walkAndPush findGroup subgroups] in Hf.
      str_cases s seg.
      * rewrite map_get_set_same in Hf.
        replace (cp ++ seg :: r) with ((cp ++ [seg]) ++ r)
          by now rewrite <- app_assoc.
        eapply IH; [|exact Hf].
        destruct (map_get seg (subgroups t)) as [n|] eqn:En.
        -- eapply entriesOk_child; eauto.
        -- apply entriesOk_fresh.
      * rewrite map_get_set_other in Hf by congruence.
        apply (H (s :: r)). exact Hf.
Qed.

(** ** The whole list added *)

Lemma cmdsAt_fold items : forall t p,
  cmdsAt (fold_left addCommand items t) p
  = cmdsAt t p ++ filter (atPath p) items.
Proof.
  induction items as [|c items IH]; intros t p; simpl.
  - now rewrite app_nil_r.
  - rewrite IH, addCommand_walk, cmdsAt_walk, <- app_assoc.
    unfold atPath. now destruct (path_eqb p (pathOf c)).
Qed.

Lemma keysAt_fold items : forall t p,
  keysAt (fold_left addCommand items t) p = childKeys p items (keysAt t p).
Proof.
  induction items as [|c items IH]; intros t p; simpl.
  - reflexivity.
  - rewrite IH, addCommand_walk, keysAt_walk. unfold childKeys.
    now destruct (nextSegment p (pathOf c)).
Qed.

Lemma entriesOk_fold items : forall t,
  entriesOk [] t -> entriesOk [] (fold_left addCommand items t).
Proof.
  induction items as [|c items IH]; intros t H; simpl; auto.
  apply IH. rewrite addCommand_walk. now apply entriesOk_walk.
Qed.

Lemma findGroup_fold_None items : forall t p,
  findGroup (fold_left addCommand items t) p = None
  <-> findGroup t p = None
      /\ existsb (fun c => isPrefix p (pathOf c)) items = false.
Proof.
  induction items as [|c items IH]; intros t p; simpl.
  - tauto.
  - rewrite IH, addCommand_walk, findGroup_walk_None, orb_false_iff. tauto.
Qed.

Lemma cmdsAt_build items p :
  cmdsAt (buildGroupTree items) p = filter (atPath p) items.
Proof.
  unfold buildGroupTree. rewrite cmdsAt_fold.
  destruct p; reflexivity.
Qed.

Lemma keysAt_build items p :
  keysAt (buildGroupTree items) p = childKeys p items [].
Proof.
  unfold buildGroupTree. rewrite keysAt_fold.
  destruct p; reflexivity.
Qed.

Lemma entriesOk_build items : entriesOk [] (buildGroupTree items).
Proof. apply entriesOk_fold. apply entriesOk_fresh. Qed.

Lemma findGroup_build_None items p :
  findGroup (buildGroupTree items) p = None
  <-> p <> [] /\ existsb (fun c => isPrefix p (pathOf c)) items = false.
Proof.
  unfold buildGroupTree. rewrite findGroup_fold_None.
  destruct p; simpl; intuition congruence.
Qed.

(** ** Prefixes and child keys *)

Lemma isPrefix_spec p : forall segs,
  isPrefix p segs = true <-> exists rest, segs = p ++ rest.
Proof.
  induction p as [|x p IH]; intros segs; simpl.
  - split; eauto.
  - destruct segs as [|y segs].
    + split; [discriminate | intros [r [=]]].
    + rewrite andb_true_iff, str_eqb_eq, IH. split.
      * intros [-> [r ->]]. eauto.
      * intros [r [= -> ->]]. eauto.
Qed.

Lemma nextSegment_spec p : forall segs s,
  nextSegment p segs = Some s <-> exists rest, segs = p ++ s :: rest.
Proof.
  induction p as [|x p IH]; intros segs s; simpl.
  - destruct segs as [|y segs].
    + split; [discriminate | intros [r [=]]].
    + split; [intros [= ->]; eauto | intros [r [= -> ->]]; reflexivity].
  - destruct segs as [|y segs].
    + split; [discriminate | intros [r [=]]].
    + str_cases x y.
      * rewrite IH. split; intros [r E]; exists r; [now subst | now inversion E].
      * split; [discriminate | intros [r [= -> ->]]; congruence].
Qed.

Lemma existsb_str_In s ks : existsb (str_eqb s) ks = true <-> In s ks.
Proof.
  rewrite existsb_exists. split.
  - intros [x [Hx E]]. apply str_eqb_eq in E. now subst.
  - intros H. exists s. split; [assumption | apply str_eqb_refl].
Qed.

Lemma addKey_In ks s k : In k (addKey ks s) <-> In k ks \/ k = s.
Proof.
  unfold addKey. destruct (existsb (str_eqb s) ks) eqn:E.
  - apply existsb_str_In in E. intuition (subst; auto).
  - rewrite in_app_iff. simpl. intuition.
Qed.

Lemma addKey_NoDup ks s : NoDup ks -> NoDup (addKey ks s).
Proof.
  intros H. unfold addKey. destruct (existsb (str_eqb s) ks) eqn:E; auto.
  apply NoDup_app; auto.
  - repeat constructor. simpl. tauto.
  - intros x Hx [<-|[]].
    apply existsb_str_In in Hx. congruence.
Qed.

Lemma childKeys_In p items : forall acc k,
  In k (childKeys p items acc)
  <-> In k acc \/ exists c, In c items /\ nextSegment p (pathOf c) = Some k.
Proof.
  unfold childKeys.
  induction items as [|c items IH]; intros acc k; simpl.
  - split; [auto | intros [H | [c [[] _]]]; auto].
  - rewrite IH. destruct (nextSegment p (pathOf c)) as [s|] eqn:E.
    + rewrite addKey_In. split.
      * intros [[H | ->] | [c' [H1 H2]]]; eauto 6.
      * intros [H | [c' [[<- | H1] H2]]]; eauto 6.
        rewrite E in H2. injection H2 as ->. auto.
    + split.
      * intros [H | [c' [H1 H2]]]; eauto 6.
      * intros [H | [c' [[<- | H1] H2]]]; eauto 6. congruence.
Qed.

Lemma childKeys_NoDup p items : forall acc,
  NoDup acc -> NoDup (childKeys p items acc).
Proof.
  unfold childKeys.
  induction items as [|c items IH]; intros acc H; simpl; auto.
  apply IH. destruct (nextSegment p (pathOf c)); auto using addKey_NoDup.
Qed.

(** ** What a query returns *)

Lemma headerFor_snoc p k : headerFor (p ++ [k]) = GroupNode k (p ++ [k]) false.
Proof. unfold headerFor. now rewrite last_last. Qed.

Lemma filter_nil_existsb (A : Type) (f : A -> bool) l :
  filter f l = [] <-> existsb f l = false.
Proof.
  induction l as [|x l IH]; simpl; [tauto|].
  destruct (f x); simpl; [split; discriminate | exact IH].
Qed.

Lemma filter_all (A : Type) (f : A -> bool) l :
  existsb (fun x => negb (f x)) l = false -> filter f l = l.
Proof.
  induction l as [|x l IH]; simpl; auto.
  destruct (f x); simpl; [intros H; f_equal; auto | discriminate].
Qed.

Lemma atPath_nil c : atPath [] c = true <-> pathOf c = [].
Proof. unfold atPath. rewrite path_eqb_eq. split; congruence. Qed.

Lemma atPath_spec p c : atPath p c = true <-> pathOf c = p.
Proof. unfold atPath. rewrite path_eqb_eq. split; congruence. Qed.

Lemma hasGrouped_spec items :
  hasGrouped items = true <-> exists c, In c items /\ pathOf c <> [].
Proof.
  unfold hasGrouped. rewrite existsb_exists.
  split; intros [c [Hc H]]; exists c; split; auto.
  - intros E. apply atPath_nil in E. rewrite E in H. discriminate.
  - destruct (atPath [] c) eqn:E; auto. apply atPath_nil in E. contradiction.
Qed.

Lemma hasRootLevel_spec items :
  hasRootLevel items = true <-> exists c, In c items /\ pathOf c = [].
Proof.
  unfold hasRootLevel. rewrite existsb_exists.
  split; intros [c [Hc H]]; exists c; split; auto; now apply atPath_nil.
Qed.

Lemma rootKeys_nil items :
  childKeys [] items [] = [] <-> hasGrouped items = false.
Proof.
  split.
  - intros E. destruct (hasGrouped items) eqn:G; auto.
    apply hasGrouped_spec in G. destruct G as [c [Hc Hp]].
    destruct (pathOf c) as [|s r] eqn:Ec; [congruence|].
    assert (In s (childKeys [] items [])) as Hin.
    { apply childKeys_In. right. exists c. split; auto. now rewrite Ec. }
    rewrite E in Hin. destruct Hin.
  - intros G. destruct (childKeys [] items []) as [|k ks] eqn:E; auto.
    assert (In k (childKeys [] items [])) as Hin by (rewrite E; now left).
    apply childKeys_In in Hin. destruct Hin as [[] | [c [Hc Hn]]].
    assert (hasGrouped items = true) as G'; [|congruence].
    apply hasGrouped_spec. exists c. split; auto.
    intros Ep. rewrite Ep in Hn. discriminate.
Qed.

Section Queries.
Variable localeCompare : jsstring -> jsstring -> Z.

Lemma createGroupNodes_spec p (m : list (jsstring * CommandGroupTree)) :
  Forall (entryOk p) m ->
  createGroupNodes localeCompare m
  = List.map (fun k => headerFor (p ++ [k])) (sort localeCompare (map_keys m)).
Proof.
  intros H. unfold createGroupNodes, map_values, map_keys.
  assert (List.map fst m = List.map t_label (List.map snd m)) as ->.
  { rewrite map_map. apply map_ext_in. intros kv Hkv.
    rewrite Forall_forall in H. symmetry. apply (H kv Hkv). }
  rewrite <- (sort_map t_label localeCompare (List.map snd m)).
  rewrite (map_map t_label). apply map_ext_in.
  intros g Hg. rewrite headerFor_snoc. f_equal.
  apply sort_In in Hg. apply in_map_iff in Hg. destruct Hg as [kv [<- Hkv]].
  rewrite Forall_forall in H. destruct (H kv Hkv) as [Hl Hs].
  now rewrite Hs, Hl.
Qed.

(** The node found at [p] holds the records whose path is [p], in input
    order, and one child per distinct segment that follows [p]. *)
Lemma node_contents items p g :
  findGroup (buildGroupTree items) p = Some g ->
  commands g = filter (atPath p) items
  /\ createGroupNodes localeCompare (subgroups g)
     = List.map (fun k => headerFor (p ++ [k]))
         (sort localeCompare (childKeys p items [])).
Proof.
  intros Hf. split.
  - rewrite <- cmdsAt_build. unfold cmdsAt. now rewrite Hf.
  - rewrite <- keysAt_build. unfold keysAt. rewrite Hf.
    apply createGroupNodes_spec.
    pose proof (@entriesOk_build items) as HE. apply (HE p g Hf).
Qed.

Lemma root_children items :
  getChildrenOf localeCompare items None
  = if hasGrouped items
    then (if hasRootLevel items then [ungroupedHeader] else [])
         ++ List.map (fun k => headerFor [k])
              (sort localeCompare (childKeys [] items []))
    else List.map CommandNode items.
Proof.
  unfold getChildrenOf.
  destruct (node_contents items [] (g := buildGroupTree items) eq_refl)
    as [Hc Hs].
  pose proof (keysAt_build items []) as Hk. unfold keysAt in Hk. simpl in Hk.
  destruct (hasGrouped items) eqn:G.
  - assert ((List.length (subgroups (buildGroupTree items)) =? 0)%nat = false)
      as ->.
    { apply Nat.eqb_neq. intros L. apply length_zero_iff_nil in L.
      rewrite L in Hk. simpl in Hk. symmetry in Hk.
      apply rootKeys_nil in Hk. congruence. }
    rewrite Hs, Hc. unfold hasRootLevel.
    destruct (existsb (atPath []) items) eqn:R.
    + assert ((0 <? List.length (filter (atPath []) items))%nat = true) as ->.
      { apply Nat.ltb_lt.
        destruct (filter (atPath []) items) eqn:F; simpl; [|lia].
        apply filter_nil_existsb in F. congruence. }
      reflexivity.
    + apply filter_nil_existsb in R. rewrite R. reflexivity.
  - apply rootKeys_nil in G. rewrite G in Hk.
    unfold map_keys in Hk. apply map_eq_nil in Hk. rewrite Hk. simpl.
    rewrite Hc. f_equal. apply filter_all. now apply rootKeys_nil.
Qed.

Lemma ungrouped_children items l segs :
  getChildrenOf localeCompare items (Some (GroupNode l segs true))
  = List.map CommandNode (filter (atPath []) items).
Proof.
  unfold getChildrenOf.
  now destruct (node_contents items [] (g := buildGroupTree items) eq_refl)
    as [-> _].
Qed.

Lemma group_children items l segs :
  getChildrenOf localeCompare items (Some (GroupNode l segs false))
  = match findGroup (buildGroupTree items) segs with
    | None => []
    | Some _ =>
        List.map (fun k => headerFor (segs ++ [k]))
          (sort localeCompare (childKeys segs items []))
        ++ List.map CommandNode (filter (atPath segs) items)
    end.
Proof.
  unfold getChildrenOf.
  destruct (findGroup (buildGroupTree items) segs) as [g|] eqn:Hf; auto.
  now destruct (node_contents items segs Hf) as [-> ->].
Qed.
End Queries.

(** ** Navigation *)

Lemma prefixesFrom_snoc segs : forall cp k,
  prefixesFrom cp (segs ++ [k]) = prefixesFrom cp segs ++ [cp ++ segs ++ [k]].
Proof.
  induction segs as [|s r IH]; intros cp k; simpl.
  - reflexivity.
  - rewrite IH, <- app_assoc. reflexivity.
Qed.

Lemma trailOf_snoc p k : trailOf (p ++ [k]) = trailOf p ++ [headerFor (p ++ [k])].
Proof. unfold trailOf. now rewrite prefixesFrom_snoc, map_app. Qed.

Lemma trailOf_removelast p :
  p <> [] -> trailOf (removelast p) ++ [headerFor p] = trailOf p.
Proof.
  intros H. rewrite (app_removelast_last [] H) at 2 3.
  now rewrite trailOf_snoc.
Qed.

Lemma findGroup_prefix items c q rest :
  In c items -> pathOf c = q ++ rest ->
  findGroup (buildGroupTree items) q <> None.
Proof.
  intros Hc Hp Hn. apply findGroup_build_None in Hn. destruct Hn as [_ Hn].
  assert (existsb (fun c => isPrefix q (pathOf c)) items = true) as E;
    [|congruence].
  apply existsb_exists. exists c. split; auto.
  apply isPrefix_spec. eauto.
Qed.

Lemma childKeys_prefix items c q k rest :
  In c items -> pathOf c = q ++ k :: rest -> In k (childKeys q items []).
Proof.
  intros Hc Hp. apply childKeys_In. right. exists c. split; auto.
  apply nextSegment_spec. eauto.
Qed.

Section Reachability.
Variable localeCompare : jsstring -> jsstring -> Z.
Variable items : list CommandConfig.
Local Abbreviation children := (getChildrenOf localeCompare items).
Local Abbreviation reach := (Reach localeCompare items).

Lemma root_header_in c k rest :
  In c items -> pathOf c = k :: rest -> In (headerFor [k]) (children None).
Proof.
  intros Hc Hp. rewrite root_children.
  assert (hasGrouped items = true) as ->.
  { apply hasGrouped_spec. exists c. split; auto. now rewrite Hp. }
  apply in_or_app. right.
  apply (in_map (fun k => headerFor [k])). apply sort_In.
  now apply (@childKeys_prefix items c [] k rest).
Qed.

Lemma sub_header_in c q k rest l :
  In c items -> pathOf c = q ++ k :: rest ->
  In (headerFor (q ++ [k])) (children (Some (GroupNode l q false))).
Proof.
  intros Hc Hp. rewrite group_children.
  destruct (findGroup (buildGroupTree items) q) eqn:Hf.
  - apply in_or_app. left.
    apply (in_map (fun k => headerFor (q ++ [k]))). apply sort_In.
    now apply (@childKeys_prefix items c q k rest).
  - now apply (@findGroup_prefix items c q (k :: rest)) in Hf.
Qed.

Lemma leaf_in c l :
  In c items ->
  In (CommandNode c) (children (Some (GroupNode l (pathOf c) false))).
Proof.
  intros Hc. rewrite group_children.
  destruct (findGroup (buildGroupTree items) (pathOf c)) eqn:Hf.
  - apply in_or_app. right. apply in_map. apply filter_In. split; auto.
    now apply atPath_spec.
  - apply (@findGroup_prefix items c (pathOf c) []) in Hf; auto.
    now rewrite app_nil_r.
Qed.

(** The header of every non-empty prefix of a record's path is reached on
    the trail of the prefix before it. *)
Lemma reach_prefix c : In c items ->
  forall q rest, q <> [] -> pathOf c = q ++ rest ->
  reach (trailOf (removelast q)) (headerFor q).
Proof.
  intros Hc q. induction q as [|k q IH] using rev_ind; intros rest Hq Hp.
  - contradiction.
  - rewrite removelast_last. rewrite <- app_assoc in Hp. simpl in Hp.
    destruct q as [|s q'].
    + apply Reach_root. now apply (@root_header_in c k rest).
    + rewrite <- (@trailOf_removelast (s :: q')) by discriminate.
      apply Reach_step.
      * apply (IH (k :: rest)); [discriminate | exact Hp].
      * now apply (@sub_header_in c (s :: q') k rest).
Qed.

Lemma reach_canonical c : In c items -> reach (canonicalTrail items c) (CommandNode c).
Proof.
  intros Hc. unfold canonicalTrail.
  destruct (pathOf c) as [|s r] eqn:Hp.
  - destruct (hasGrouped items) eqn:G.
    + apply (Reach_step (trail := [])).
      * apply Reach_root. rewrite root_children, G.
        assert (hasRootLevel items = true) as ->.
        { apply hasRootLevel_spec. eauto. }
        now left.
      * unfold ungroupedHeader. rewrite ungrouped_children.
        apply in_map. apply filter_In. split; auto. now apply atPath_nil.
    + apply Reach_root. rewrite root_children, G. now apply in_map.
  - rewrite <- (@trailOf_removelast (s :: r)) by discriminate.
    apply Reach_step.
    + apply (@reach_prefix c Hc (s :: r) []); [discriminate|].
      now rewrite app_nil_r.
    + unfold headerFor. rewrite <- Hp. now apply leaf_in.
Qed.

(** Every header the host can obtain is the synthetic one, at the root, or
    the header of an existing group, on the trail of that group. *)
Lemma reach_header trail h :
  reach trail h -> isGroupNode h = true ->
  (h = ungroupedHeader /\ trail = [] /\ hasGrouped items = true)
  \/ (exists p, p <> [] /\ h = headerFor p /\ trail ++ [h] = trailOf p
                /\ findGroup (buildGroupTree items) p <> None).
Proof.
  induction 1 as [x Hx | trail h' x Hr IH Hx]; intros Hg.
  - rewrite root_children in Hx.
    destruct (hasGrouped items) eqn:G.
    + apply in_app_or in Hx. destruct Hx as [Hx | Hx].
      * destruct (hasRootLevel items); [|destruct Hx].
        destruct Hx as [<- | []]. now left.
      * apply in_map_iff in Hx. destruct Hx as [k [<- Hk]].
        apply sort_In in Hk. right. exists [k].
        repeat split; [discriminate|].
        apply childKeys_In in Hk. destruct Hk as [[] | [c [Hc Hn]]].
        apply nextSegment_spec in Hn. destruct Hn as [rest Hn].
        now apply (@findGroup_prefix items c [k] rest).
    + apply in_map_iff in Hx. destruct Hx as [c [<- _]]. discriminate.
  - destruct h' as [c | l segs u | l]; try (now destruct Hx).
    destruct (IH eq_refl) as [[E [Et G]] | [p [Hp [E [Et Hf]]]]].
    + injection E as -> -> ->. rewrite ungrouped_children in Hx.
      apply in_map_iff in Hx. destruct Hx as [c [<- _]]. discriminate.
    + unfold headerFor in E. injection E as -> -> ->.
      rewrite group_children in Hx.
      destruct (findGroup (buildGroupTree items) p) as [g|] eqn:Hfp;
        [|destruct Hx].
      apply in_app_or in Hx. destruct Hx as [Hx | Hx].
      * apply in_map_iff in Hx. destruct Hx as [k [<- Hk]].
        apply sort_In in Hk. right. exists (p ++ [k]).
        split; [now destruct p | split; [reflexivity | split]].
        -- rewrite trailOf_snoc. f_equal. exact Et.
        -- apply childKeys_In in Hk. destruct Hk as [[] | [c [Hc Hn]]].
           apply nextSegment_spec in Hn. destruct Hn as [rest Hn].
           apply (@findGroup_prefix items c (p ++ [k]) rest); auto.
           now rewrite <- app_assoc.
      * apply in_map_iff in Hx. destruct Hx as [c [<- _]]. discriminate.
Qed.

(** A leaf is only ever obtained on the trail of its record. *)
Lemma reach_leaf trail c :
  reach trail (CommandNode c) ->
  In c items /\ trail = canonicalTrail items c.
Proof.
  intros H. inversion H as [x Hx | trail' h' x Hr Hx]; subst.
  - rewrite root_children in Hx.
    destruct (hasGrouped items) eqn:G.
    + apply in_app_or in Hx. destruct Hx as [Hx | Hx].
      * destruct (hasRootLevel items); [|destruct Hx].
        destruct Hx as [[=] | []].
      * apply in_map_iff in Hx. destruct Hx as [k [[=] _]].
    + apply in_map_iff in Hx. destruct Hx as [c' [[= ->] Hc]].
      split; auto. unfold canonicalTrail. rewrite G.
      destruct (pathOf c) eqn:Hp; auto.
      assert (hasGrouped items = true) as G'; [|congruence].
      apply hasGrouped_spec. exists c. split; auto. now rewrite Hp.
  - destruct h' as [c' | l segs u | l]; try (now destruct Hx).
    destruct (reach_header Hr eq_refl) as [[E [Et G]] | [p [Hp [E [Et Hf]]]]].
    + injection E as -> -> ->. rewrite ungrouped_children in Hx.
      apply in_map_iff in Hx. destruct Hx as [c' [[= ->] Hc]].
      apply filter_In in Hc. destruct Hc as [Hc Ha].
      apply atPath_nil in Ha. split; auto.
      unfold canonicalTrail. rewrite Ha, G, Et. reflexivity.
    + rewrite Et. unfold headerFor in E. injection E as -> -> ->.
      rewrite group_children in Hx.
      destruct (findGroup (buildGroupTree items) p) as [g|] eqn:Hfp;
        [|destruct Hx].
      apply in_app_or in Hx. destruct Hx as [Hx | Hx].
      * apply in_map_iff in Hx. destruct Hx as [k [[=] _]].
      * apply in_map_iff in Hx. destruct Hx as [c' [[= ->] Hc]].
        apply filter_In in Hc. destruct Hc as [Hc Ha].
        apply atPath_spec in Ha. split; auto.
        unfold canonicalTrail. rewrite Ha. now destruct p.
Qed.
End Reachability.

(** ** The comparator of the examples is a total preorder *)

Lemma ciCompare_total a : forall b,
  (ciCompare a b <= 0 \/ ciCompare b a <= 0)%Z.
Proof.
  induction a as [|x a IH]; intros [|y b]; simpl; try lia.
  rewrite (N.compare_antisym (foldCase x) (foldCase y)).
  destruct (foldCase x ?= foldCase y)%N; simpl; try lia. apply IH.
Qed.

Lemma ciCompare_trans a : forall b c,
  (ciCompare a b <= 0 -> ciCompare b c <= 0 -> ciCompare a c <= 0)%Z.
Proof.
  induction a as [|x a IH]; intros [|y b] [|z c]; simpl; try lia.
  destruct (N.compare_spec (foldCase x) (foldCase y)) as [E1|L1|G1];
    destruct (N.compare_spec (foldCase y) (foldCase z)) as [E2|L2|G2];
    try lia; intros H1 H2.
  - rewrite E1, E2, N.compare_refl. eauto.
  - rewrite E1. now apply N.compare_lt_iff in L2 as ->.
  - rewrite <- E2. now apply N.compare_lt_iff in L1 as ->.
  - assert (foldCase x < foldCase z)%N as L by lia.
    now apply N.compare_lt_iff in L as ->.
Qed.

(** ** The earlier revision, for comparison *)

(** Without any group the earlier revision lists the records flatly too. *)
Lemma legacy_flat_list (items : list CommandConfig) :
  Legacy.hasGroup items = false ->
  Legacy.getChildren items None = List.map Legacy.CommandNode items.
Proof. intros H. unfold Legacy.getChildren. now rewrite H. Qed.

(** It does not split a group string at the slashes. *)
Lemma legacy_group_is_one_header :
  Legacy.getChildren [cmd0 "deep" (Some "A/B/C"%string)] None
  = [Legacy.GroupNode (lit "A/B/C")].
Proof. reflexivity. Qed.

(** Its "Ungrouped" header is told apart by its label only, so a group of
    that name shares the header; the [isUngrouped] flag and the reserved
    identity of the later revision separate the two. *)
Lemma legacy_ungrouped_shared :
  Legacy.getChildren
    [cmd0 "a" None; cmd0 "b" (Some "Ungrouped"%string)]
    (Some (Legacy.GroupNode (lit "Ungrouped")))
  = [Legacy.CommandNode (cmd0 "a" None);
     Legacy.CommandNode (cmd0 "b" (Some "Ungrouped"%string))].
Proof. reflexivity. Qed.

Lemma tree_ungrouped_separate :
  getChildrenOf ciCompare
    [cmd0 "a" None; cmd0 "b" (Some "Ungrouped"%string)]
    (Some (GroupNode UNGROUPED_LABEL [] true))
  = [CommandNode (cmd0 "a" None)]
  /\ getChildrenOf ciCompare
       [cmd0 "a" None; cmd0 "b" (Some "Ungrouped"%string)]
       (Some (GroupNode (lit "Ungrouped") [lit "Ungrouped"] false))
     = [CommandNode (cmd0 "b" (Some "Ungrouped"%string))].
Proof. split; reflexivity. Qed.

(** ** Splitting, joining and trimming *)

Lemma split_not_nil sep s : split sep s <> [].
Proof.
  destruct s as [|c s]; simpl; [discriminate|].
  destruct (N.eqb c sep); [discriminate|].
  destruct (split sep s); discriminate.
Qed.

Lemma split_nosep sep a : ~ In sep a -> split sep a = [a].
Proof.
  induction a as [|c a IH]; simpl; intros H; auto.
  destruct (N.eqb_spec c sep) as [E|E]; [tauto|].
  rewrite IH by tauto. reflexivity.
Qed.

Lemma split_app sep a r :
  ~ In sep a -> split sep (a ++ sep :: r) = a :: split sep r.
Proof.
  induction a as [|c a IH]; simpl; intros H.
  - now rewrite N.eqb_refl.
  - destruct (N.eqb_spec c sep) as [E|E]; [tauto|].
    rewrite IH by tauto. reflexivity.
Qed.

Lemma split_pieces sep s : Forall (fun p => ~ In sep p) (split sep s).
Proof.
  induction s as [|c s IH]; simpl.
  - constructor; auto.
  - destruct (N.eqb_spec c sep) as [E|E].
    + constructor; auto.
    + destruct (split sep s) as [|p ps]; constructor.
      * simpl. tauto.
      * constructor.
      * inversion IH; subst. simpl. tauto.
      * now inversion IH.
Qed.

Lemma join_cons2 sep x y r :
  join sep (x :: y :: r) = x ++ sep ++ join sep (y :: r).
Proof. reflexivity. Qed.

Lemma split_join ps :
  ps <> [] -> Forall noSlash ps -> split SLASH (join [SLASH] ps) = ps.
Proof.
  induction ps as [|x r IH]; intros Hn H; [contradiction|].
  inversion H as [|? ? Hx Hr]; subst.
  destruct r as [|y r'].
  - simpl. now apply split_nosep.
  - rewrite join_cons2. simpl app. rewrite split_app by exact Hx.
    f_equal. apply IH; [discriminate | exact Hr].
Qed.

Lemma join_split s : join [SLASH] (split SLASH s) = s.
Proof.
  induction s as [|c s IH]; simpl; auto.
  pose proof (@split_not_nil SLASH s) as Hn.
  destruct (N.eqb_spec c SLASH) as [E|E].
  - destruct (split SLASH s) as [|p ps]; [contradiction|].
    rewrite join_cons2, IH, E. reflexivity.
  - destruct (split SLASH s) as [|p ps]; [contradiction|].
    destruct ps as [|q ps]; [simpl in *; now rewrite IH|].
    rewrite join_cons2 in *. rewrite <- IH. reflexivity.
Qed.

Lemma join_inj p q :
  p <> [] -> q <> [] -> Forall noSlash p -> Forall noSlash q ->
  join [SLASH] p = join [SLASH] q -> p = q.
Proof.
  intros Hp Hq Fp Fq E.
  rewrite <- (split_join Hp Fp), <- (split_join Hq Fq). now rewrite E.
Qed.

Lemma join_not_nil sep p :
  p <> [] -> Forall (fun s => s <> []) p -> join sep p <> [].
Proof.
  destruct p as [|x r]; [contradiction|]. intros _ H.
  inversion H; subst. destruct r; simpl.
  - assumption.
  - destruct x; [contradiction | discriminate].
Qed.

Lemma trimStart_In c s : In c (trimStart s) -> In c s.
Proof.
  induction s as [|x s IH]; simpl; auto.
  destruct (isWhiteSpace x); simpl; tauto.
Qed.

Lemma trim_In c s : In c (trim s) -> In c s.
Proof.
  unfold trim, trimEnd. intros H.
  apply in_rev, trimStart_In in H. apply in_rev in H.
  now apply trimStart_In.
Qed.

Lemma parse_some g :
  parseGroupSegments (Some g)
  = filter (fun part => (0 <? List.length part)%nat)
           (List.map trim (split SLASH g)).
Proof. destruct g; reflexivity. Qed.

(** The segments of a parsed group are non-empty and hold no separator. *)
Lemma parse_segments_ok g :
  Forall (fun s => s <> [] /\ noSlash s) (parseGroupSegments g).
Proof.
  destruct g as [g|]; [|constructor].
  rewrite parse_some. apply Forall_forall. intros s Hs.
  apply filter_In in Hs. destruct Hs as [Hs Hl].
  apply in_map_iff in Hs. destruct Hs as [piece [<- Hp]]. split.
  - intros E. rewrite E in Hl. discriminate.
  - intros Hin. apply trim_In in Hin.
    pose proof (split_pieces SLASH g) as F. rewrite Forall_forall in F.
    now apply (F piece Hp).
Qed.

Lemma filter_trim ps :
  filter (fun part => (0 <? List.length part)%nat) (List.map trim ps)
  = List.map trim (filter (fun p => negb (blank p)) ps).
Proof.
  induction ps as [|x ps IH]; simpl; auto.
  rewrite IH. unfold blank. destruct (List.length (trim x)); reflexivity.
Qed.

(** A group string written as pieces joined with slashes parses to its
    pieces, trimmed, without the blank ones. *)
Lemma parse_join ps :
  Forall noSlash ps ->
  parseGroupSegments (Some (join [SLASH] ps))
  = List.map trim (filter (fun p => negb (blank p)) ps).
Proof.
  intros H. rewrite parse_some, <- filter_trim.
  destruct ps as [|x r]; [reflexivity|].
  rewrite split_join; [reflexivity | discriminate | exact H].
Qed.

(** ** White space around and between the segments *)

Lemma trimStart_startsClean s : startsClean (trimStart s).
Proof.
  induction s as [|c s IH]; simpl; auto.
  destruct (isWhiteSpace c) eqn:E; simpl; auto.
Qed.

Lemma trimStart_clean s : startsClean s -> trimStart s = s.
Proof. destruct s as [|c s]; simpl; auto. now intros ->. Qed.

Lemma trimStart_suffix s : exists ws, s = ws ++ trimStart s.
Proof.
  induction s as [|c s [ws IH]]; simpl.
  - now exists [].
  - destruct (isWhiteSpace c).
    + exists (c :: ws). simpl. now f_equal.
    + now exists [].
Qed.

Lemma startsClean_app a b : startsClean (a ++ b) -> startsClean a.
Proof. destruct a; simpl; auto. Qed.

Lemma trimEnd_startsClean s : startsClean s -> startsClean (trimEnd s).
Proof.
  intros H. unfold trimEnd.
  destruct (trimStart_suffix (rev s)) as [ws E].
  apply (f_equal (@rev codeUnit)) in E.
  rewrite rev_involutive, rev_app_distr in E.
  rewrite E in H. now apply startsClean_app in H.
Qed.

Lemma trim_startsClean s : startsClean (trim s).
Proof. apply trimEnd_startsClean, trimStart_startsClean. Qed.

Lemma trim_endsClean s : endsClean (trim s).
Proof.
  unfold endsClean, trim, trimEnd. rewrite rev_involutive.
  apply trimStart_startsClean.
Qed.

Lemma trim_fixed s : startsClean s -> endsClean s -> trim s = s.
Proof.
  intros Hs He. unfold trim, trimEnd.
  rewrite (@trimStart_clean s Hs), (@trimStart_clean (rev s) He).
  apply rev_involutive.
Qed.

(** White space holds no slash. *)
Lemma ws_noSlash s : forallb isWhiteSpace s = true -> noSlash s.
Proof.
  intros H Hin. rewrite forallb_forall in H. apply H in Hin. discriminate.
Qed.

Lemma trimStart_ws pre s :
  forallb isWhiteSpace pre = true -> trimStart (pre ++ s) = trimStart s.
Proof.
  induction pre as [|c pre IH]; simpl; auto.
  intros H. apply andb_true_iff in H. destruct H as [-> H]. auto.
Qed.

Lemma trimStart_nil_ws s : trimStart s = [] <-> forallb isWhiteSpace s = true.
Proof.
  induction s as [|c s IH]; simpl; [tauto|].
  destruct (isWhiteSpace c); simpl; [exact IH|].
  split; discriminate.
Qed.

Lemma forallb_rev (A : Type) (f : A -> bool) l :
  forallb f (rev l) = forallb f l.
Proof.
  destruct (forallb f l) eqn:E.
  - rewrite forallb_forall in *. intros x Hx. apply E. now apply in_rev.
  - destruct (forallb f (rev l)) eqn:E'; auto.
    rewrite forallb_forall in E'.
    assert (forallb f l = true) as H; [|congruence].
    apply forallb_forall. intros x Hx. apply E'. now apply in_rev in Hx.
Qed.

(** A piece is discarded exactly when it holds white space only. *)
Lemma blank_ws p : blank p = forallb isWhiteSpace p.
Proof.
  unfold blank.
  destruct (forallb isWhiteSpace p) eqn:E.
  - apply trimStart_nil_ws in E. unfold trim, trimEnd. now rewrite E.
  - destruct (trim p) as [|c t] eqn:T; [|reflexivity].
    exfalso. unfold trim, trimEnd in T.
    apply (f_equal (@rev codeUnit)) in T. rewrite rev_involutive in T.
    simpl in T. apply trimStart_nil_ws in T. rewrite forallb_rev in T.
    pose proof (trimStart_startsClean p) as C.
    destruct (trimStart p) as [|x u] eqn:U.
    + apply trimStart_nil_ws in U. congruence.
    + simpl in C, T. rewrite C in T. discriminate.
Qed.

(** Trimming removes the white space around a core that neither starts nor
    ends with white space, and leaves nothing of white space alone. *)
Lemma trim_padded pre core post :
  forallb isWhiteSpace pre = true -> forallb isWhiteSpace post = true ->
  core = [] \/ validSegment core ->
  trim (pre ++ core ++ post) = core.
Proof.
  intros Hpre Hpost [-> | [Hn [_ [Hs He]]]].
  - simpl. unfold trim, trimEnd.
    assert (trimStart (pre ++ post) = []) as ->; [|reflexivity].
    apply trimStart_nil_ws. rewrite forallb_app, Hpre, Hpost. reflexivity.
  - unfold trim, trimEnd. rewrite (@trimStart_ws pre (core ++ post) Hpre).
    assert (startsClean (core ++ post)) as Hc
      by (destruct core; [contradiction | exact Hs]).
    rewrite (@trimStart_clean (core ++ post) Hc), rev_app_distr.
    rewrite trimStart_ws by now rewrite forallb_rev.
    rewrite (@trimStart_clean (rev core) He). apply rev_involutive.
Qed.

Lemma filter_blank_ws ps :
  filter (fun p => negb (blank p)) ps
  = filter (fun p => negb (forallb isWhiteSpace p)) ps.
Proof. apply filter_ext. intros p. now rewrite blank_ws. Qed.

Lemma parse_pieces ps :
  Forall noSlash ps ->
  parseGroupSegments (Some (join [SLASH] ps))
  = filter (fun part => (0 <? List.length part)%nat) (List.map trim ps).
Proof. intros H. now rewrite parse_join, filter_trim. Qed.

Lemma padded_noSlash t : wellPadded t -> noSlash (padded t).
Proof.
  intros [Hb [Ha Hc]] Hin. unfold padded in Hin.
  apply in_app_or in Hin. destruct Hin as [Hin | Hin].
  - now apply (@ws_noSlash _ Hb).
  - apply in_app_or in Hin. destruct Hin as [Hin | Hin].
    + destruct Hc as [E | [_ [Hs _]]]; [rewrite E in Hin; destruct Hin|].
      now apply Hs.
    + now apply (@ws_noSlash _ Ha).
Qed.

Lemma parse_padded l :
  Forall wellPadded l ->
  parseGroupSegments (Some (join [SLASH] (List.map padded l)))
  = filter (fun part => (0 <? List.length part)%nat) (List.map pad_core l).
Proof.
  intros H. rewrite parse_pieces.
  - f_equal. rewrite map_map. apply map_ext_in. intros t Ht.
    rewrite Forall_forall in H. destruct (H t Ht) as [Hb [Ha Hc]].
    now apply trim_padded.
  - apply Forall_forall. intros piece Hp. apply in_map_iff in Hp.
    destruct Hp as [t [<- Ht]]. apply padded_noSlash.
    rewrite Forall_forall in H. now apply H.
Qed.

(** ** Header identities *)

Lemma node_path_ok items p :
  findGroup (buildGroupTree items) p <> None ->
  Forall (fun s => s <> [] /\ noSlash s) p.
Proof.
  intros Hf.
  destruct (existsb (fun c => isPrefix p (pathOf c)) items) eqn:E.
  - apply existsb_exists in E. destruct E as [c [_ Hp]].
    apply isPrefix_spec in Hp. destruct Hp as [rest Hp].
    pose proof (parse_segments_ok (group c)) as F.
    fold (pathOf c) in F. rewrite Hp in F.
    now apply Forall_app in F.
  - destruct p as [|s r]; [constructor|].
    elim Hf. apply findGroup_build_None. split; [discriminate | exact E].
Qed.

Lemma Forall_ok_split p :
  Forall (fun s => s <> [] /\ noSlash s) p ->
  Forall (fun s => s <> []) p /\ Forall noSlash p.
Proof.
  intros H. split; eapply Forall_impl; try exact H; simpl; tauto.
Qed.

Lemma itemId_headerFor p :
  p <> [] -> Forall (fun s => s <> []) p ->
  itemId (headerFor p) = Some (join [SLASH] p).
Proof.
  intros Hp F. simpl.
  pose proof (@join_not_nil [SLASH] p Hp F) as Hj.
  destruct (join [SLASH] p); [contradiction | reflexivity].
Qed.

Lemma sentinel_noSlash : noSlash UNGROUPED_ID.
Proof.
  assert (existsb (N.eqb SLASH) UNGROUPED_ID = false) as E by reflexivity.
  intros Hin. assert (existsb (N.eqb SLASH) UNGROUPED_ID = true); [|congruence].
  apply existsb_exists. exists SLASH. split; [exact Hin | apply N.eqb_refl].
Qed.

Lemma join_sentinel p :
  p <> [] -> Forall noSlash p ->
  join [SLASH] p = UNGROUPED_ID -> p = [UNGROUPED_ID].
Proof.
  intros Hp F E. rewrite <- (split_join Hp F), E.
  apply split_nosep. exact sentinel_noSlash.
Qed.

(** ** The configured commands *)

Lemma firstDefined_decides defaults cs : forall k v,
  nth_error cs k = Some (Some v) ->
  (forall j, (j < k)%nat -> nth_error cs j = Some None) ->
  firstDefined defaults cs
  = match v with ArrayValue cmds => cmds | NonArrayValue => defaults end.
Proof.
  induction cs as [|c cs IH]; intros k v Hk Hb.
  - destruct k; discriminate.
  - destruct k as [|k]; simpl in Hk.
    + injection Hk as ->. reflexivity.
    + pose proof (Hb 0%nat (Nat.lt_0_succ k)) as H0. simpl in H0.
      injection H0 as ->. simpl. apply (IH k v Hk).
      intros j Hj. apply (Hb (S j)). lia.
Qed.

Lemma firstDefined_none defaults cs :
  Forall (fun c => c = None) cs -> firstDefined defaults cs = defaults.
Proof.
  induction 1 as [|c cs -> _ IH]; simpl; auto.
Qed.

(** ** The default bundle *)

(** The shape test holds of the objects with a string [label] and a string
    [insertText], and of nothing else. *)
Lemma isCommandConfig_spec (value : JSON) :
  isCommandConfig value = true
  <-> exists fields l t,
        value = JObject fields
        /\ map_get (lit "label") fields = Some (JString l)
        /\ map_get (lit "insertText") fields = Some (JString t).
Proof.
  split.
  - destruct value as [| b | n | s | elements | fields];
      try (unfold isCommandConfig; simpl;
           rewrite ?orb_true_r; discriminate).
    unfold isCommandConfig. simpl.
    destruct (map_get (lit "label") fields) as [[]|] eqn:El;
      try discriminate.
    destruct (map_get (lit "insertText") fields) as [[]|] eqn:Et;
      try discriminate.
    intros _. eauto 6.
  - intros [fields [l [t [-> [Hl Ht]]]]].
    unfold isCommandConfig. simpl. now rewrite Hl, Ht.
Qed.

(** ** Sorted child keys *)

Lemma sorted_keys_facts (localeCompare : jsstring -> jsstring -> Z)
    (items : list CommandConfig) (p : list jsstring) :
  (forall a b, (localeCompare a b <= 0 \/ localeCompare b a <= 0)%Z) ->
  (forall a b c, (localeCompare a b <= 0 -> localeCompare b c <= 0
                  -> localeCompare a c <= 0)%Z) ->
  let keys := sort localeCompare (childKeys p items []) in
  StronglySorted (precedes localeCompare) keys
  /\ NoDup keys
  /\ (forall k, In k keys
                <-> exists c rest, In c items /\ pathOf c = p ++ k :: rest).
Proof.
  intros total trans keys. repeat split.
  - now apply sort_sorted.
  - eapply Permutation_NoDup; [apply sort_perm|].
    apply childKeys_NoDup. constructor.
  - intros Hk. apply sort_In, childKeys_In in Hk.
    destruct Hk as [[] | [c [Hc Hn]]].
    apply nextSegment_spec in Hn. destruct Hn as [rest Hn]. eauto.
  - intros [c [rest [Hc Hp]]]. apply sort_In.
    now apply (@childKeys_prefix items c p k rest).
Qed.

(** * The claims *)

(** C1.  A record of the input whose group parses to [A; B; C] has its leaf
    among the children of the header of [A; B; C], which is among the
    children of the header of [A; B], which is among those of the header of
    [A], which the root query returns; and a leaf is obtained on no trail
    of queries other than the one of its record's parsed group. *)
Theorem C1_round_trip (localeCompare : jsstring -> jsstring -> Z)
    (items : list CommandConfig) (c : CommandConfig) :
  In c items ->
  (forall A B C, parseGroupSegments (group c) = [A; B; C] ->
     let hA := GroupNode A [A] false in
     let hB := GroupNode B [A; B] false in
     let hC := GroupNode C [A; B; C] false in
     In hA (getChildrenOf localeCompare items None)
     /\ In hB (getChildrenOf localeCompare items (Some hA))
     /\ In hC (getChildrenOf localeCompare items (Some hB))
     /\ In (CommandNode c) (getChildrenOf localeCompare items (Some hC))
     /\ canonicalTrail items c = [hA; hB; hC])
  /\ Reach localeCompare items (canonicalTrail items c) (CommandNode c)
  /\ (forall trail,
        Reach localeCompare items trail (CommandNode c) ->
        trail = canonicalTrail items c).
Proof.
  intros Hc. split; [|split].
  - intros A B C Hp hA hB hC. fold (pathOf c) in Hp. repeat split.
    + apply (@root_header_in localeCompare items c A [B; C] Hc Hp).
    + apply (@sub_header_in localeCompare items c [A] B [C] A Hc Hp).
    + apply (@sub_header_in localeCompare items c [A; B] C [] B Hc Hp).
    + unfold hC. rewrite <- Hp. now apply leaf_in.
    + unfold canonicalTrail. rewrite Hp. reflexivity.
  - now apply reach_canonical.
  - intros trail Hr. now apply (@reach_leaf localeCompare items trail c).
Qed.

Lemma C1_round_trip_witness :
  Reach ciCompare
    [cmd0 "top" None; cmd0 "deep" (Some "A/B/C"%string);
     cmd0 "mid" (Some "A/B"%string)]
    [GroupNode (lit "A") [lit "A"] false;
     GroupNode (lit "B") [lit "A"; lit "B"] false;
     GroupNode (lit "C") [lit "A"; lit "B"; lit "C"] false]
    (CommandNode (cmd0 "deep" (Some "A/B/C"%string))).
Proof.
  apply (@C1_round_trip ciCompare
           [cmd0 "top" None; cmd0 "deep" (Some "A/B/C"%string);
            cmd0 "mid" (Some "A/B"%string)]
           (cmd0 "deep" (Some "A/B/C"%string))).
  right. now left.
Defined.

(** C2, as the code has it.  When the group of some record parses to at
    least one segment, the root query returns one header per distinct first
    segment, sorted with the comparator, after the synthetic header, which
    is there exactly when some record is root-level. *)
Theorem C2_root_headers (localeCompare : jsstring -> jsstring -> Z)
    (items : list CommandConfig) :
  (forall a b, (localeCompare a b <= 0 \/ localeCompare b a <= 0)%Z) ->
  (forall a b c, (localeCompare a b <= 0 -> localeCompare b c <= 0
                  -> localeCompare a c <= 0)%Z) ->
  (exists c, In c items /\ parseGroupSegments (group c) <> []) ->
  let keys := sort localeCompare (childKeys [] items []) in
  getChildrenOf localeCompare items None
  = (if hasRootLevel items then [GroupNode UNGROUPED_LABEL [] true] else [])
    ++ List.map (fun k => GroupNode k [k] false) keys
  /\ StronglySorted (precedes localeCompare) keys
  /\ NoDup keys
  /\ (forall k, In k keys
                <-> exists c rest,
                      In c items /\ parseGroupSegments (group c) = k :: rest)
  /\ (hasRootLevel items = true
      <-> exists c, In c items /\ parseGroupSegments (group c) = []).
Proof.
  intros total trans Hex keys.
  destruct (@sorted_keys_facts localeCompare items [] total trans)
    as [S [N I]].
  split; [|split; [exact S | split; [exact N | split; [exact I|]]]].
  - rewrite root_children.
    apply hasGrouped_spec in Hex. rewrite Hex. reflexivity.
  - apply hasRootLevel_spec.
Qed.

Lemma C2_root_headers_witness :
  getChildrenOf ciCompare
    [cmd0 "z" (Some "beta"%string); cmd0 "L" None;
     cmd0 "H" (Some "Alpha/x"%string); cmd0 "K" (Some "alpha"%string)] None
  = [GroupNode UNGROUPED_LABEL [] true;
     GroupNode (lit "Alpha") [lit "Alpha"] false;
     GroupNode (lit "alpha") [lit "alpha"] false;
     GroupNode (lit "beta") [lit "beta"] false].
Proof.
  apply (@C2_root_headers ciCompare
           [cmd0 "z" (Some "beta"%string); cmd0 "L" None;
            cmd0 "H" (Some "Alpha/x"%string); cmd0 "K" (Some "alpha"%string)]
           ciCompare_total ciCompare_trans).
  exists (cmd0 "z" (Some "beta"%string)). split; [now left | discriminate].
Defined.

(** C2 as stated fails: the only group of the input is not the empty
    string, but it parses to no segment; the record is root-level and the
    root query returns its leaf, without any header. *)
Lemma C2_blank_group :
  group (cmd0 "a" (Some " "%string)) = Some (lit " ")
  /\ lit " " <> []
  /\ parseGroupSegments (group (cmd0 "a" (Some " "%string))) = []
  /\ getChildrenOf ciCompare [cmd0 "a" (Some " "%string)] None
     = [CommandNode (cmd0 "a" (Some " "%string))].
Proof.
  split; [reflexivity | split; [discriminate | split; reflexivity]].
Qed.

(** C3.  When no record has a non-empty parsed group, the tree has no group
    node and the root query returns one leaf per record, in input order, and
    no group header. *)
Theorem C3_flat_list (localeCompare : jsstring -> jsstring -> Z)
    (items : list CommandConfig) :
  (forall c, In c items -> parseGroupSegments (group c) = []) ->
  subgroups (buildGroupTree items) = []
  /\ getChildrenOf localeCompare items None = List.map CommandNode items
  /\ (forall x, In x (getChildrenOf localeCompare items None)
                -> isGroupNode x = false).
Proof.
  intros H.
  assert (hasGrouped items = false) as G.
  { destruct (hasGrouped items) eqn:G; auto.
    apply hasGrouped_spec in G. destruct G as [c [Hc Hp]].
    elim Hp. now apply H. }
  assert (getChildrenOf localeCompare items None = List.map CommandNode items)
    as E by now rewrite root_children, G.
  repeat split.
  - pose proof (keysAt_build items []) as Hk. unfold keysAt in Hk.
    simpl in Hk. apply rootKeys_nil in G. rewrite G in Hk.
    now apply map_eq_nil in Hk.
  - exact E.
  - intros x Hx. rewrite E in Hx. apply in_map_iff in Hx.
    now destruct Hx as [c [<- _]].
Qed.

Lemma C3_flat_list_witness :
  getChildrenOf ciCompare [cmd0 "b" None; cmd0 "a" (Some " / "%string)] None
  = [CommandNode (cmd0 "b" None); CommandNode (cmd0 "a" (Some " / "%string))].
Proof.
  apply (@C3_flat_list ciCompare
           [cmd0 "b" None; cmd0 "a" (Some " / "%string)]).
  intros c [<- | [<- | []]]; reflexivity.
Defined.

(** C4.  For a header that is not the synthetic one and whose path resolves
    in the rebuilt tree, the query returns the headers of the node's
    subgroups, sorted with the comparator, followed by the leaves of the
    records placed at that node, in input order. *)
Theorem C4_group_children (localeCompare : jsstring -> jsstring -> Z)
    (items : list CommandConfig) (labelText : jsstring)
    (segments : list jsstring) (g : CommandGroupTree) :
  (forall a b, (localeCompare a b <= 0 \/ localeCompare b a <= 0)%Z) ->
  (forall a b c, (localeCompare a b <= 0 -> localeCompare b c <= 0
                  -> localeCompare a c <= 0)%Z) ->
  findGroup (buildGroupTree items) segments = Some g ->
  let keys := sort localeCompare (childKeys segments items []) in
  let own :=
    filter (fun c => path_eqb segments (parseGroupSegments (group c))) items in
  getChildrenOf localeCompare items (Some (GroupNode labelText segments false))
  = List.map (fun k => GroupNode k (segments ++ [k]) false) keys
    ++ List.map CommandNode own
  /\ commands g = own
  /\ StronglySorted (precedes localeCompare) keys
  /\ NoDup keys
  /\ (forall k, In k keys
                <-> exists c rest,
                      In c items
                      /\ parseGroupSegments (group c) = segments ++ k :: rest).
Proof.
  intros total trans Hf keys own.
  destruct (@sorted_keys_facts localeCompare items segments total trans)
    as [S [N I]].
  split; [|split; [|split; [exact S | split; [exact N | exact I]]]].
  - rewrite group_children, Hf. f_equal.
    apply map_ext. intros k. apply headerFor_snoc.
  - now destruct (@node_contents localeCompare items segments g Hf).
Qed.

Lemma C4_group_children_witness :
  getChildrenOf ciCompare
    [cmd0 "one" (Some "X"%string); cmd0 "deep" (Some "X/Y"%string);
     cmd0 "two" (Some "X"%string)]
    (Some (GroupNode (lit "X") [lit "X"] false))
  = [GroupNode (lit "Y") [lit "X"; lit "Y"] false;
     CommandNode (cmd0 "one" (Some "X"%string));
     CommandNode (cmd0 "two" (Some "X"%string))].
Proof.
  eapply (@C4_group_children ciCompare
            [cmd0 "one" (Some "X"%string); cmd0 "deep" (Some "X/Y"%string);
             cmd0 "two" (Some "X"%string)]
            (lit "X") [lit "X"] _ ciCompare_total ciCompare_trans).
  reflexivity.
Defined.

(** C5.  The group strings ["A//B/"] and ["A/B"] parse to the same
    segments, so two records of the input carrying them sit in the same
    node and are obtained on the same trail of queries.  In general a group
    string is split at the slashes, the white space around each piece is
    removed, and the pieces that hold nothing or white space only are
    discarded: a string made of pieces, each a core between two runs of
    white space, parses to the cores that are not empty.  Two records whose
    groups parse alike are obtained on the same trails. *)
Theorem C5_path_collapsing (localeCompare : jsstring -> jsstring -> Z)
    (items : list CommandConfig) (c1 c2 : CommandConfig) :
  In c1 items -> In c2 items ->
  group c1 = Some (lit "A//B/") -> group c2 = Some (lit "A/B") ->
  let hA := GroupNode (lit "A") [lit "A"] false in
  let hB := GroupNode (lit "B") [lit "A"; lit "B"] false in
  parseGroupSegments (group c1) = [lit "A"; lit "B"]
  /\ parseGroupSegments (group c2) = [lit "A"; lit "B"]
  /\ (exists g, findGroup (buildGroupTree items) [lit "A"; lit "B"] = Some g
                /\ In c1 (commands g) /\ In c2 (commands g))
  /\ (forall trail,
        Reach localeCompare items trail (CommandNode c1) <-> trail = [hA; hB])
  /\ (forall trail,
        Reach localeCompare items trail (CommandNode c2) <-> trail = [hA; hB])
  /\ (forall ps qs, Forall noSlash ps -> Forall noSlash qs ->
        filter (fun p => negb (blank p)) ps
        = filter (fun p => negb (blank p)) qs ->
        parseGroupSegments (Some (join [SLASH] ps))
        = parseGroupSegments (Some (join [SLASH] qs)))
  /\ (forall ps qs, Forall noSlash ps -> Forall noSlash qs ->
        filter (fun p => negb (forallb isWhiteSpace p)) ps
        = filter (fun p => negb (forallb isWhiteSpace p)) qs ->
        parseGroupSegments (Some (join [SLASH] ps))
        = parseGroupSegments (Some (join [SLASH] qs)))
  /\ (forall l, Forall wellPadded l ->
        parseGroupSegments (Some (join [SLASH] (List.map padded l)))
        = filter (fun core => (0 <? List.length core)%nat)
                 (List.map pad_core l))
  /\ parseGroupSegments
       (Some (lit " A /" ++ [9; 160; 65279]%N ++ lit "/B" ++ [8232%N]))
     = [lit "A"; lit "B"]
  /\ (forall c c', In c items -> In c' items ->
        parseGroupSegments (group c) = parseGroupSegments (group c') ->
        forall trail,
          Reach localeCompare items trail (CommandNode c)
          <-> Reach localeCompare items trail (CommandNode c')).
Proof.
  intros H1 H2 G1 G2 hA hB.
  assert (pathOf c1 = [lit "A"; lit "B"]) as P1
    by (unfold pathOf; now rewrite G1).
  assert (pathOf c2 = [lit "A"; lit "B"]) as P2
    by (unfold pathOf; now rewrite G2).
  assert (forall c trail, In c items -> pathOf c = [lit "A"; lit "B"] ->
            (Reach localeCompare items trail (CommandNode c)
             <-> trail = [hA; hB])) as HR.
  { intros c trail Hc Hp.
    assert (canonicalTrail items c = [hA; hB]) as Ec
      by (unfold canonicalTrail; now rewrite Hp).
    split.
    - intros Hr. apply reach_leaf in Hr. destruct Hr as [_ ->]. exact Ec.
    - intros ->. rewrite <- Ec. now apply reach_canonical. }
  assert (forall ps qs, Forall noSlash ps -> Forall noSlash qs ->
            filter (fun p => negb (blank p)) ps
            = filter (fun p => negb (blank p)) qs ->
            parseGroupSegments (Some (join [SLASH] ps))
            = parseGroupSegments (Some (join [SLASH] qs))) as HB.
  { intros ps qs Fp Fq E. rewrite !parse_join by assumption. now rewrite E. }
  split; [exact P1 | split; [exact P2 | split; [|split; [|split]]]].
  - destruct (findGroup (buildGroupTree items) [lit "A"; lit "B"])
      as [g|] eqn:Hf.
    + exists g. split; auto.
      destruct (@node_contents localeCompare items _ g Hf) as [-> _].
      split; apply filter_In; split; auto; now apply atPath_spec.
    + apply (@findGroup_prefix items c1 [lit "A"; lit "B"] []) in Hf;
        [destruct Hf | exact H1 | now rewrite P1].
  - intros trail. now apply HR.
  - intros trail. now apply HR.
  - split; [exact HB | split; [|split; [|split]]].
    + intros ps qs Fp Fq E. apply HB; auto.
      now rewrite !filter_blank_ws.
    + apply parse_padded.
    + reflexivity.
    + intros c c' Hc Hc' E trail.
      assert (canonicalTrail items c = canonicalTrail items c') as Et
        by (unfold canonicalTrail, pathOf; now rewrite E).
      split; intros Hr; apply reach_leaf in Hr; destruct Hr as [_ ->].
      * rewrite Et. now apply reach_canonical.
      * rewrite <- Et. now apply reach_canonical.
Qed.

Lemma C5_path_collapsing_witness :
  parseGroupSegments
    (Some
       (join [SLASH]
          (List.map padded
             [mkPadded (lit " ") (lit "A") (lit "  ");
              mkPadded [] [] [];
              mkPadded (lit "  ") [] [];
              mkPadded [] (lit "B C") (lit " ")])))
  = [lit "A"; lit "B C"].
Proof.
  destruct (@C5_path_collapsing ciCompare
              [cmd0 "s" (Some "A//B/"%string); cmd0 "s" (Some "A/B"%string)]
              (cmd0 "s" (Some "A//B/"%string)) (cmd0 "s" (Some "A/B"%string))
              (or_introl eq_refl) (or_intror (or_introl eq_refl))
              eq_refl eq_refl)
    as [_ [_ [_ [_ [_ [_ [_ [H _]]]]]]]].
  apply H.
  repeat constructor; simpl; auto; try (right; repeat split);
    try discriminate; try reflexivity;
    intros Hin; simpl in Hin;
    repeat (destruct Hin as [Hin | Hin]; [discriminate|]); exact Hin.
Defined.

(** C6, as the code has it.  A header the host can obtain is the synthetic
    one, whose identity is the fixed sentinel, or the header of a group,
    whose identity is its path joined with ['/'].  The path of a group has
    the sentinel as its identity only when it is the one-segment path made
    of the sentinel itself; the path ["Ungrouped"] has not.  Two obtainable
    headers with the same identity are the same header, or are the synthetic
    header and the header of the root-level group named as the sentinel. *)
Theorem C6_header_identity (localeCompare : jsstring -> jsstring -> Z)
    (items : list CommandConfig) :
  (forall trail h,
     Reach localeCompare items trail h -> isGroupNode h = true ->
     (h = GroupNode UNGROUPED_LABEL [] true /\ itemId h = Some UNGROUPED_ID)
     \/ (exists p, p <> []
                   /\ h = GroupNode (last p []) p false
                   /\ itemId h = Some (join [SLASH] p)
                   /\ (join [SLASH] p = UNGROUPED_ID -> p = [UNGROUPED_ID])))
  /\ itemId (GroupNode (lit "Ungrouped") [lit "Ungrouped"] false)
     <> Some UNGROUPED_ID
  /\ (forall trail1 h1 trail2 h2,
        Reach localeCompare items trail1 h1 ->
        Reach localeCompare items trail2 h2 ->
        isGroupNode h1 = true -> isGroupNode h2 = true ->
        itemId h1 = itemId h2 ->
        h1 = h2
        \/ (h1 = ungroupedHeader /\ h2 = headerFor [UNGROUPED_ID])
        \/ (h2 = ungroupedHeader /\ h1 = headerFor [UNGROUPED_ID]))
  /\ ((forall c rest, In c items ->
         parseGroupSegments (group c) <> UNGROUPED_ID :: rest) ->
      forall trail1 h1 trail2 h2,
        Reach localeCompare items trail1 h1 ->
        Reach localeCompare items trail2 h2 ->
        isGroupNode h1 = true -> isGroupNode h2 = true ->
        itemId h1 = itemId h2 -> h1 = h2).
Proof.
  assert (forall trail h,
            Reach localeCompare items trail h -> isGroupNode h = true ->
            (h = ungroupedHeader /\ itemId h = Some UNGROUPED_ID)
            \/ (exists p, p <> [] /\ h = headerFor p
                          /\ itemId h = Some (join [SLASH] p)
                          /\ Forall noSlash p
                          /\ findGroup (buildGroupTree items) p <> None))
    as Hshape.
  { intros trail h Hr Hg.
    destruct (reach_header Hr Hg) as [[-> _] | [p [Hp [-> [_ Hf]]]]].
    - left. split; reflexivity.
    - right. exists p.
      destruct (Forall_ok_split (node_path_ok items p Hf)) as [Fn Fs].
      repeat split; auto. now apply itemId_headerFor. }
  assert (forall trail1 h1 trail2 h2,
            Reach localeCompare items trail1 h1 ->
            Reach localeCompare items trail2 h2 ->
            isGroupNode h1 = true -> isGroupNode h2 = true ->
            itemId h1 = itemId h2 ->
            h1 = h2
            \/ (h1 = ungroupedHeader /\ h2 = headerFor [UNGROUPED_ID])
            \/ (h2 = ungroupedHeader /\ h1 = headerFor [UNGROUPED_ID]))
    as Hpair.
  { intros t1 h1 t2 h2 R1 R2 G1 G2 E.
    destruct (Hshape _ _ R1 G1) as [[E1 I1] | [p1 [N1 [E1 [I1 [F1 _]]]]]];
      destruct (Hshape _ _ R2 G2) as [[E2 I2] | [p2 [N2 [E2 [I2 [F2 _]]]]]].
    - left. congruence.
    - right. left. split; auto.
      rewrite I1, I2 in E. injection E as E.
      rewrite E2. f_equal. apply join_sentinel; auto.
    - right. right. split; auto.
      rewrite I1, I2 in E. injection E as E.
      rewrite E1. f_equal. apply join_sentinel; auto.
    - left. rewrite I1, I2 in E. injection E as E.
      rewrite E1, E2. f_equal. now apply join_inj. }
  split; [|split; [|split]].
  - intros trail h Hr Hg.
    destruct (Hshape _ _ Hr Hg) as [[E I] | [p [N [E [I [F _]]]]]].
    + left. split; auto.
    + right. exists p. repeat split; auto. intros Ej. now apply join_sentinel.
  - discriminate.
  - exact Hpair.
  - intros Hno t1 h1 t2 h2 R1 R2 G1 G2 E.
    assert (forall t, ~ Reach localeCompare items t (headerFor [UNGROUPED_ID]))
      as Hnot.
    { intros t R. destruct (Hshape _ _ R eq_refl)
        as [[[=] _] | [p [_ [Ep [_ [_ Hf]]]]]].
      unfold headerFor in Ep. injection Ep as _ <-.
      destruct (existsb (fun c => isPrefix [UNGROUPED_ID] (pathOf c)) items)
        eqn:Ex.
      - apply existsb_exists in Ex. destruct Ex as [c [Hc Hp]].
        apply isPrefix_spec in Hp. destruct Hp as [rest Hp].
        now apply (Hno c rest Hc).
      - apply Hf. apply findGroup_build_None. split; [discriminate | exact Ex]. }
    destruct (Hpair _ _ _ _ R1 R2 G1 G2 E) as [H | [[_ H] | [_ H]]]; auto.
    + subst h2. now apply Hnot in R2.
    + subst h1. now apply Hnot in R1.
Qed.

Lemma C6_header_identity_witness :
  itemId (GroupNode (lit "Ungrouped") [lit "Ungrouped"] false)
  <> Some UNGROUPED_ID.
Proof.
  apply (@C6_header_identity ciCompare [cmd0 "H" (Some "Ungrouped"%string)]).
Defined.

(** C6 as stated fails: with a root-level record and a group named as the
    sentinel, the root query returns two different headers with one
    identity. *)
Lemma C6_sentinel_collision :
  getChildrenOf ciCompare
    [cmd0 "a" None; cmd0 "b" (Some "__commandDictionaryUngrouped__"%string)]
    None
  = [GroupNode UNGROUPED_LABEL [] true;
     GroupNode UNGROUPED_ID [UNGROUPED_ID] false]
  /\ GroupNode UNGROUPED_LABEL [] true
     <> GroupNode UNGROUPED_ID [UNGROUPED_ID] false
  /\ itemId (GroupNode UNGROUPED_LABEL [] true)
     = itemId (GroupNode UNGROUPED_ID [UNGROUPED_ID] false).
Proof.
  split; [reflexivity | split; [discriminate | reflexivity]].
Qed.

(** C7, as the code has it.  The commands of a query are those of the first
    layer, from the most specific on, that has a value, when that value is
    an array, whatever the layers after it hold; the default list is used
    when that value is not an array, when no layer has a value, and when
    the configuration cannot be inspected. *)
Theorem C7_scope_shadowing (localeCompare : jsstring -> jsstring -> Z)
    (defaultCommands : list CommandConfig) (inspected : Inspection)
    (k : nat) (v : ConfigValue) (element : option TreeItem) :
  nth_error (candidates inspected) k = Some (Some v) ->
  (forall j, (j < k)%nat -> nth_error (candidates inspected) j = Some None) ->
  let used :=
    match v with ArrayValue cmds => cmds | NonArrayValue => defaultCommands end
  in
  getConfiguredCommands defaultCommands (Some inspected) = used
  /\ getChildren localeCompare defaultCommands (Some inspected) element
     = getChildrenOf localeCompare used element
  /\ (forall i, Forall (fun c => c = None) (candidates i) ->
        getConfiguredCommands defaultCommands (Some i) = defaultCommands)
  /\ getConfiguredCommands defaultCommands None = defaultCommands.
Proof.
  intros Hk Hb used.
  assert (getConfiguredCommands defaultCommands (Some inspected) = used) as E
    by (apply (@firstDefined_decides defaultCommands _ k v Hk Hb)).
  split; [exact E | split; [|split]].
  - unfold getChildren. now rewrite E.
  - intros i Hi. now apply firstDefined_none.
  - reflexivity.
Qed.

Lemma C7_scope_shadowing_witness :
  getConfiguredCommands [cmd0 "default" None]
    (Some (mkInspection None None None
             (Some (ArrayValue [cmd0 "folder" None]))
             None
             (Some (ArrayValue [cmd0 "global" None; cmd0 "more" None]))))
  = [cmd0 "folder" None].
Proof.
  apply (@C7_scope_shadowing ciCompare [cmd0 "default" None]
           (mkInspection None None None
              (Some (ArrayValue [cmd0 "folder" None]))
              None
              (Some (ArrayValue [cmd0 "global" None; cmd0 "more" None])))
           3%nat (ArrayValue [cmd0 "folder" None]) None).
  - reflexivity.
  - intros [|[|[|j]]] Hj; try reflexivity. lia.
Defined.

(** C7 as stated fails: a layer has a value, which is not an array, and
    the default list is used.  Besides, a layer set to the empty array does
    count as a value: it hides the layers after it. *)
Lemma C7_non_array_layer :
  globalValue (mkInspection None None None None None (Some NonArrayValue))
  = Some NonArrayValue
  /\ getConfiguredCommands [cmd0 "default" None]
       (Some (mkInspection None None None None None (Some NonArrayValue)))
     = [cmd0 "default" None]
  /\ getConfiguredCommands [cmd0 "default" None]
       (Some (mkInspection None None None None (Some (ArrayValue []))
                (Some (ArrayValue [cmd0 "global" None]))))
     = [].
Proof. split; [|split]; reflexivity. Qed.

(** C8, as the code has it.  Loading the default bundle completes normally
    whatever the file system and the parser do.  When reading or parsing
    throws, the error is logged and the list is empty; when the parsed value
    is not an array the list is empty and nothing is logged; when it is an
    array the list is its well-shaped elements, in order. *)
Theorem C8_default_bundle
    (readFileSync : jsstring -> Completion jsstring)
    (JSON_parse : jsstring -> Completion JSON)
    (path_join : list jsstring -> jsstring) (extensionPath : jsstring) :
  let defaultsPath :=
    path_join [extensionPath; lit "resources"; lit "defaultCommands.json"] in
  let loaded :=
    loadDefaultCommands readFileSync JSON_parse path_join extensionPath in
  let failure := lit "commandDictionary: failed to load default commands" in
  (exists cmds, fst loaded = Normal cmds)
  /\ (forall error, readFileSync defaultsPath = Throw error ->
        loaded = (Normal [], [ConsoleError failure error]))
  /\ (forall raw error,
        readFileSync defaultsPath = Normal raw ->
        JSON_parse raw = Throw error ->
        loaded = (Normal [], [ConsoleError failure error]))
  /\ (forall raw parsed,
        readFileSync defaultsPath = Normal raw ->
        JSON_parse raw = Normal parsed ->
        (forall elements, parsed <> JArray elements) ->
        loaded = (Normal [], []))
  /\ (forall raw elements,
        readFileSync defaultsPath = Normal raw ->
        JSON_parse raw = Normal (JArray elements) ->
        loaded = (Normal (filter isCommandConfig elements), []))
  /\ (forall value,
        isCommandConfig value = true
        <-> exists fields l t,
              value = JObject fields
              /\ map_get (lit "label") fields = Some (JString l)
              /\ map_get (lit "insertText") fields = Some (JString t)).
Proof.
  intros defaultsPath loaded failure.
  unfold loaded, loadDefaultCommands, tryLoad. fold defaultsPath.
  split; [|split; [|split; [|split; [|split]]]].
  - destruct (readFileSync defaultsPath) as [raw|e]; simpl; [|eauto].
    destruct (JSON_parse raw) as [[]|e]; simpl; eauto.
  - intros error ->. reflexivity.
  - intros raw error -> Hp. simpl. rewrite Hp. reflexivity.
  - intros raw parsed -> Hp Hn. simpl. rewrite Hp. simpl.
    destruct parsed; try reflexivity. now elim (Hn elements).
  - intros raw elements -> Hp. simpl. rewrite Hp. reflexivity.
  - apply isCommandConfig_spec.
Qed.

Lemma C8_default_bundle_witness :
  loadDefaultCommands
    (fun _ => Normal (lit "[{},{}]"))
    (fun _ =>
       Normal
         (JArray
            [JObject [(lit "label", JString (lit "a"));
                      (lit "insertText", JNumber 1)];
             JObject [(lit "insertText", JString (lit "b();"));
                      (lit "label", JString (lit "b"))]]))
    (join [SLASH]) (lit "/ext")
  = (Normal [JObject [(lit "insertText", JString (lit "b();"));
                      (lit "label", JString (lit "b"))]],
     []).
Proof.
  destruct (@C8_default_bundle
              (fun _ => Normal (lit "[{},{}]"))
              (fun _ =>
                 Normal
                   (JArray
                      [JObject [(lit "label", JString (lit "a"));
                                (lit "insertText", JNumber 1)];
                       JObject [(lit "insertText", JString (lit "b();"));
                                (lit "label", JString (lit "b"))]]))
              (join [SLASH]) (lit "/ext"))
    as [_ [_ [_ [_ [H _]]]]].
  exact (H _ _ eq_refl eq_refl).
Defined.

(** C8 as stated fails: a bundle that parses to something other than an
    array gives the empty list with nothing logged. *)
Lemma C8_non_array_not_logged :
  loadDefaultCommands
    (fun _ => Normal (lit "{}")) (fun _ => Normal (JObject []))
    (join [SLASH]) (lit "/ext")
  = (Normal [], []).
Proof. reflexivity. Qed.

(** C9.  Without an active editor the command shows the notice and asks
    for no edit, so the buffer is as it was; with one, it asks for a single
    edit holding, for each selection in turn, a replacement of the
    selection by the text when the selection is not empty and an insertion
    of the text at the cursor when it is. *)
Theorem C9_insert (text : jsstring) :
  insertCommand None text = [ShowInformationMessage NO_EDITOR_NOTICE]
  /\ (forall (Buffer : Type) (applyEdit : Buffer -> list EditOp -> Buffer)
             (b : Buffer),
        runEffects applyEdit b (insertCommand None text) = b)
  /\ (forall editor, exists ops,
        insertCommand (Some editor) text = [EditorEdit ops]
        /\ List.length ops = List.length (selections editor)
        /\ forall i sel,
             nth_error (selections editor) i = Some sel ->
             nth_error ops i
             = Some (if isEmpty sel then Insert (sel_start sel) text
                     else Replace (sel_start sel) (sel_end sel) text)).
Proof.
  split; [reflexivity | split; [reflexivity|]].
  intros editor. exists (List.map (editFor text) (selections editor)).
  split; [reflexivity | split; [apply length_map|]].
  intros i sel Hi. rewrite nth_error_map, Hi. simpl.
  unfold editFor. now destruct (isEmpty sel).
Qed.

(** C10.  For a header whose path does not resolve in the rebuilt tree the
    query returns the empty sequence.  The headers are those the provider
    builds: the synthetic one has the empty path. *)
Theorem C10_unresolved_header (localeCompare : jsstring -> jsstring -> Z)
    (items : list CommandConfig) (labelText : jsstring)
    (segments : list jsstring) (isUngrouped : bool) :
  (isUngrouped = true -> segments = []) ->
  findGroup (buildGroupTree items) segments = None ->
  getChildrenOf localeCompare items
    (Some (GroupNode labelText segments isUngrouped))
  = [].
Proof.
  intros Hu Hf. destruct isUngrouped.
  - rewrite (Hu eq_refl) in Hf. discriminate.
  - unfold getChildrenOf. now rewrite Hf.
Qed.

Lemma C10_unresolved_header_witness :
  getChildrenOf ciCompare [cmd0 "H" (Some "Headers"%string)]
    (Some (GroupNode (lit "Gone") [lit "Gone"] false))
  = [].
Proof.
  apply (@C10_unresolved_header ciCompare [cmd0 "H" (Some "Headers"%string)]
           (lit "Gone") [lit "Gone"] false).
  - discriminate.
  - reflexivity.
Defined.

(** * Further properties of the code *)

(** ** The nodes of the tree *)

Lemma findGroup_snoc p : forall t k,
  findGroup t (p ++ [k])
  = match findGroup t p with
    | Some n => map_get k (subgroups n)
    | None => None
    end.
Proof.
  induction p as [|s r IH]; intros t k; simpl.
  - now destruct (map_get k (subgroups t)).
  - destruct (map_get s (subgroups t)); auto.
Qed.

Lemma fold_label items : forall t,
  t_label (fold_left addCommand items t) = t_label t
  /\ t_segments (fold_left addCommand items t) = t_segments t.
Proof.
  induction items as [|c items IH]; intros t; simpl; auto.
  destruct (IH (addCommand t c)) as [-> ->].
  now rewrite addCommand_walk, walk_label, walk_segments.
Qed.

(** X1.  Every node of the tree carries the path under which [findGroup] finds
    it and is labelled with the last segment of that path; the root has the
    empty path and the empty label. *)
Theorem node_identity (items : list CommandConfig) (p : list jsstring)
    (g : CommandGroupTree) :
  findGroup (buildGroupTree items) p = Some g ->
  t_segments g = p /\ t_label g = last p [].
Proof.
  destruct p as [|s r] using rev_ind.
  - simpl. intros [= <-]. unfold buildGroupTree.
    destruct (fold_label items emptyRoot) as [-> ->]. now split.
  - rewrite findGroup_snoc.
    destruct (findGroup (buildGroupTree items) r) as [n|] eqn:Hn;
      [|discriminate].
    intros Hg. apply map_get_In in Hg.
    pose proof (@entriesOk_build items) as HE.
    pose proof (HE r n Hn) as F. rewrite Forall_forall in F.
    destruct (F _ Hg) as [Hl Hs]. simpl in *. rewrite last_last. now split.
Qed.

Lemma node_identity_witness :
  exists g,
    findGroup
      (buildGroupTree [cmd0 "x" (Some " A / B "%string)]) [lit "A"; lit "B"]
    = Some g
    /\ t_segments g = [lit "A"; lit "B"] /\ t_label g = lit "B".
Proof.
  eexists. split; [reflexivity|].
  apply (@node_identity [cmd0 "x" (Some " A / B "%string)]
           [lit "A"; lit "B"]).
  reflexivity.
Defined.

Lemma node_has_record (items : list CommandConfig) (p : list jsstring) :
  p <> [] -> findGroup (buildGroupTree items) p <> None ->
  exists c rest, In c items /\ pathOf c = p ++ rest.
Proof.
  intros Hp Hf.
  destruct (existsb (fun c => isPrefix p (pathOf c)) items) eqn:E.
  - apply existsb_exists in E. destruct E as [c [Hc Hpre]].
    apply isPrefix_spec in Hpre. destruct Hpre as [rest Hpre]. eauto.
  - elim Hf. apply findGroup_build_None. split; [exact Hp | exact E].
Qed.

(** X2.  [findGroup] resolves the empty path and the prefixes of the paths of
    the records, and nothing else. *)
Theorem findGroup_resolves (items : list CommandConfig) (p : list jsstring) :
  findGroup (buildGroupTree items) p <> None
  <-> p = []
      \/ exists c rest,
           In c items /\ parseGroupSegments (group c) = p ++ rest.
Proof.
  split.
  - intros Hf. destruct p as [|s r]; [now left | right].
    apply node_has_record; [discriminate | exact Hf].
  - intros [-> | [c [rest [Hc Hp]]]]; [discriminate|].
    now apply (@findGroup_prefix items c p rest).
Qed.

(** X3.  No group is empty: a node other than the root holds a command or a
    subgroup. *)
Theorem group_not_empty (items : list CommandConfig) (p : list jsstring)
    (g : CommandGroupTree) :
  p <> [] ->
  findGroup (buildGroupTree items) p = Some g ->
  commands g <> [] \/ subgroups g <> [].
Proof.
  intros Hp Hf.
  assert (findGroup (buildGroupTree items) p <> None) as Hn by congruence.
  destruct (@node_has_record items p Hp Hn) as [c [rest [Hc Hr]]].
  destruct rest as [|k rest].
  - left. rewrite app_nil_r in Hr.
    pose proof (cmdsAt_build items p) as E. unfold cmdsAt in E.
    rewrite Hf in E. rewrite E. intros Hnil.
    assert (In c (filter (atPath p) items)) as Hin
      by (apply filter_In; split; auto; now apply atPath_spec).
    rewrite Hnil in Hin. destruct Hin.
  - right. pose proof (keysAt_build items p) as E. unfold keysAt in E.
    rewrite Hf in E. intros Hnil. rewrite Hnil in E. simpl in E.
    pose proof (@childKeys_prefix items c p k rest Hc Hr) as Hin.
    rewrite <- E in Hin. destruct Hin.
Qed.

Lemma group_not_empty_witness :
  exists g,
    findGroup (buildGroupTree [cmd0 "x" (Some "A/B"%string)]) [lit "A"]
    = Some g
    /\ (commands g <> [] \/ subgroups g <> []).
Proof.
  eexists. split; [reflexivity|].
  apply (@group_not_empty [cmd0 "x" (Some "A/B"%string)] [lit "A"]);
    [discriminate | reflexivity].
Defined.

(** ** Every record is in the tree once *)

Lemma allCommands_eq t :
  allCommands t
  = commands t ++ flat_map (fun kv => allCommands (snd kv)) (subgroups t).
Proof.
  destruct t as [l sg subs cmds]. reflexivity.
Qed.

Lemma flat_map_set (c : CommandConfig) k (v : CommandGroupTree) m :
  Permutation (allCommands v)
    (c :: match map_get k m with
          | Some old => allCommands old
          | None => []
          end) ->
  Permutation (flat_map (fun kv => allCommands (snd kv)) (map_set k v m))
    (c :: flat_map (fun kv => allCommands (snd kv)) m).
Proof.
  induction m as [|[k' v'] m IH]; cbn [map_get map_set flat_map snd];
    intros H.
  - now rewrite app_nil_r.
  - destruct (str_eqb k k'); cbn [flat_map snd].
    + rewrite H. reflexivity.
    + rewrite (IH H). symmetry. apply Permutation_middle.
Qed.

Lemma allCommands_walk segs : forall t cp c,
  Permutation (allCommands (walkAndPush t cp segs c)) (c :: allCommands t).
Proof.
  induction segs as [|seg rest IH]; intros t cp c.
  - rewrite !allCommands_eq. cbn [walkAndPush pushCommand commands subgroups].
    rewrite <- app_assoc. cbn [app].
    symmetry. apply Permutation_middle.
  - rewrite (allCommands_eq (walkAndPush t cp (seg :: rest) c)).
    rewrite (allCommands_eq t). cbn [walkAndPush commands subgroups].
    rewrite flat_map_set with (c := c).
    + symmetry. apply Permutation_middle.
    + rewrite IH. destruct (map_get seg (subgroups t)) as [n|];
        [reflexivity|].
      rewrite allCommands_eq. reflexivity.
Qed.

(** X4.  The tree holds every record of the input, each as often as the input
    does: nothing is lost and nothing is filed twice. *)
Theorem tree_holds_input (items : list CommandConfig) :
  Permutation (allCommands (buildGroupTree items)) items.
Proof.
  unfold buildGroupTree.
  assert (forall t, Permutation (allCommands (fold_left addCommand items t))
                      (allCommands t ++ items)) as H.
  { induction items as [|c items IH]; intros t; simpl.
    - now rewrite app_nil_r.
    - rewrite IH, addCommand_walk, allCommands_walk.
      cbn [app]. apply Permutation_middle. }
  rewrite H. reflexivity.
Qed.

(** ** The segments of a parsed group *)

Lemma segments_valid (g : option jsstring) :
  Forall validSegment (parseGroupSegments g).
Proof.
  destruct g as [g|]; [|constructor].
  pose proof (parse_segments_ok (Some g)) as F.
  rewrite parse_some in *. rewrite Forall_forall in *. intros s Hs.
  destruct (F s Hs) as [Hn Hsl].
  apply filter_In in Hs. destruct Hs as [Hs _].
  apply in_map_iff in Hs. destruct Hs as [piece [<- _]].
  repeat split; auto using trim_startsClean, trim_endsClean.
Qed.

(** X5.  Every segment [parseGroupSegments] returns is non-empty, holds no
    slash and neither starts nor ends with white space, so that trimming it
    again changes nothing. *)
Theorem parsed_segments_valid (g : option jsstring) :
  Forall validSegment (parseGroupSegments g)
  /\ List.map trim (parseGroupSegments g) = parseGroupSegments g.
Proof.
  pose proof (segments_valid g) as F. split; [exact F|].
  induction F as [|s l Hs _ IH]; simpl; auto.
  destruct Hs as [_ [_ [H1 H2]]].
  now rewrite (@trim_fixed s H1 H2), IH.
Qed.

Lemma validSegment_keeps s :
  validSegment s -> negb (blank s) = true /\ trim s = s.
Proof.
  intros [Hn [_ [Hs He]]]. unfold blank.
  rewrite (@trim_fixed s Hs He). split; auto.
  destruct s; [contradiction | reflexivity].
Qed.

Lemma join_then_parse (segs : list jsstring) :
  Forall validSegment segs ->
  parseGroupSegments (Some (join [SLASH] segs)) = segs.
Proof.
  intros H. rewrite parse_join.
  - induction H as [|s segs Hs _ IH]; simpl; auto.
    destruct (@validSegment_keeps s Hs) as [-> Ht]. simpl.
    now rewrite Ht, IH.
  - eapply Forall_impl; [|exact H]. intros s Hs. apply Hs.
Qed.

(** X6.  The lists of segments that joining with slashes and parsing gives
    back are exactly the lists of valid segments. *)
Theorem parse_join_round_trip (segs : list jsstring) :
  parseGroupSegments (Some (join [SLASH] segs)) = segs
  <-> Forall validSegment segs.
Proof.
  split.
  - intros H. rewrite <- H. apply segments_valid.
  - apply join_then_parse.
Qed.

Lemma parse_join_round_trip_witness :
  parseGroupSegments (Some (join [SLASH] [lit "BAT"; lit "Tap Changes"]))
  = [lit "BAT"; lit "Tap Changes"].
Proof.
  apply (parse_join_round_trip [lit "BAT"; lit "Tap Changes"]).
  repeat constructor; try discriminate;
    intros H; repeat (destruct H as [H | H]; [discriminate|]); exact H.
Defined.

(** X7.  Parsing is a normalisation: the segments of a group, joined with
    slashes, are a group string that parses to the same segments. *)
Theorem parse_canonical (g : option jsstring) :
  parseGroupSegments (Some (join [SLASH] (parseGroupSegments g)))
  = parseGroupSegments g.
Proof. apply join_then_parse, segments_valid. Qed.

(** ** What any query can return *)

Section AnyQuery.
Variable localeCompare : jsstring -> jsstring -> Z.
Variable items : list CommandConfig.
Local Abbreviation children := (getChildrenOf localeCompare items).

Lemma key_record p k :
  In k (sort localeCompare (childKeys p items [])) ->
  exists c rest, In c items /\ pathOf c = (p ++ [k]) ++ rest.
Proof.
  intros Hk. apply sort_In, childKeys_In in Hk.
  destruct Hk as [[] | [c [Hc Hn]]].
  apply nextSegment_spec in Hn. destruct Hn as [rest Hn].
  exists c, rest. split; auto. now rewrite <- app_assoc.
Qed.

(** Whatever element is asked about, the answer holds leaves of records of
    the input, the synthetic header (at the root only, when some record is
    root-level) and headers of paths that some record lies at or below. *)
Lemma query_result element x :
  In x (children element) ->
  match x with
  | CommandNode c => In c items
  | GroupNode l segs u =>
      if u then x = ungroupedHeader /\ element = None
                /\ hasRootLevel items = true
      else segs <> [] /\ l = last segs []
           /\ exists c rest, In c items /\ pathOf c = segs ++ rest
  | OtherItem _ => False
  end.
Proof.
  intros Hx. destruct element as [[c | l segs [|] | l]|].
  - destruct Hx.
  - rewrite ungrouped_children in Hx.
    apply in_map_iff in Hx. destruct Hx as [c [<- Hc]].
    now apply filter_In in Hc.
  - rewrite group_children in Hx.
    destruct (findGroup (buildGroupTree items) segs) as [g|];
      [|destruct Hx].
    apply in_app_or in Hx. destruct Hx as [Hx | Hx].
    + apply in_map_iff in Hx. destruct Hx as [k [<- Hk]].
      unfold headerFor. split; [now destruct segs | split; auto].
      now apply key_record.
    + apply in_map_iff in Hx. destruct Hx as [c [<- Hc]].
      now apply filter_In in Hc.
  - destruct Hx.
  - rewrite root_children in Hx.
    destruct (hasGrouped items).
    + apply in_app_or in Hx. destruct Hx as [Hx | Hx].
      * destruct (hasRootLevel items) eqn:R; [|destruct Hx].
        destruct Hx as [<- | []]. simpl. auto.
      * apply in_map_iff in Hx. destruct Hx as [k [<- Hk]].
        unfold headerFor. split; [discriminate | split; auto].
        now apply (key_record []).
    + apply in_map_iff in Hx. now destruct Hx as [c [<- Hc]].
Qed.

Lemma header_has_children c p rest l :
  In c items -> pathOf c = p ++ rest ->
  children (Some (GroupNode l p false)) <> [].
Proof.
  intros Hc Hp Hnil. destruct rest as [|k rest].
  - rewrite app_nil_r in Hp.
    pose proof (@leaf_in localeCompare items c l Hc) as Hin.
    rewrite Hp, Hnil in Hin. destruct Hin.
  - pose proof (@sub_header_in localeCompare items c p k rest l Hc Hp) as Hin.
    rewrite Hnil in Hin. destruct Hin.
Qed.
End AnyQuery.

(** X8.  A leaf in the answer to any query, even about a header that no longer
    exists, is the leaf of a record of the input; it shows the record's
    label and description and its command carries the record's insert text
    as only argument. *)
Theorem leaf_is_configured (localeCompare : jsstring -> jsstring -> Z)
    (items : list CommandConfig) (element : option TreeItem)
    (x : TreeItem) :
  In x (getChildrenOf localeCompare items element) ->
  isGroupNode x = false ->
  exists c, In c items /\ x = CommandNode c
            /\ itemLabel x = label c
            /\ itemDescription x = description c
            /\ itemArguments x = [insertText c]
            /\ getChildrenOf localeCompare items (Some x) = [].
Proof.
  intros Hx Hg. apply query_result in Hx.
  destruct x as [c | l segs u | l]; try discriminate; [|destruct Hx].
  exists c. repeat split; auto.
Qed.

Lemma leaf_is_configured_witness :
  exists c,
    In c [cmd0 "H" (Some "Headers"%string); cmd0 "L" None]
    /\ CommandNode (cmd0 "H" (Some "Headers"%string)) = CommandNode c
    /\ itemLabel (CommandNode (cmd0 "H" (Some "Headers"%string))) = label c
    /\ itemDescription (CommandNode (cmd0 "H" (Some "Headers"%string)))
       = description c
    /\ itemArguments (CommandNode (cmd0 "H" (Some "Headers"%string)))
       = [insertText c]
    /\ getChildrenOf ciCompare
         [cmd0 "H" (Some "Headers"%string); cmd0 "L" None]
         (Some (CommandNode (cmd0 "H" (Some "Headers"%string))))
       = [].
Proof.
  apply (@leaf_is_configured ciCompare
           [cmd0 "H" (Some "Headers"%string); cmd0 "L" None]
           (Some (GroupNode (lit "stale label") [lit "Headers"] false))).
  - simpl. now left.
  - reflexivity.
Defined.

(** X9.  The identity of a header in the answer to any query, other than the
    synthetic header, is its path joined with slashes, and parses back to
    that path; the path resolves in the tree. *)
Theorem header_id_round_trip (localeCompare : jsstring -> jsstring -> Z)
    (items : list CommandConfig) (element : option TreeItem)
    (labelText : jsstring) (segments : list jsstring) :
  In (GroupNode labelText segments false)
     (getChildrenOf localeCompare items element) ->
  itemId (GroupNode labelText segments false)
  = Some (join [SLASH] segments)
  /\ parseGroupSegments (Some (join [SLASH] segments)) = segments
  /\ findGroup (buildGroupTree items) segments <> None.
Proof.
  intros Hx. apply query_result in Hx.
  destruct Hx as [Hn [Hl [c [rest [Hc Hp]]]]].
  pose proof (segments_valid (group c)) as F.
  fold (pathOf c) in F. rewrite Hp in F. apply Forall_app in F.
  destruct F as [F _].
  split; [|split].
  - rewrite Hl. apply itemId_headerFor; auto.
    eapply Forall_impl; [|exact F]. intros s Hs. apply Hs.
  - now apply join_then_parse.
  - now apply (@findGroup_prefix items c segments rest).
Qed.

Lemma header_id_round_trip_witness :
  parseGroupSegments (Some (join [SLASH] [lit "A"; lit "B"]))
  = [lit "A"; lit "B"].
Proof.
  apply (@header_id_round_trip ciCompare [cmd0 "x" (Some " A //B"%string)]
           (Some (GroupNode (lit "A") [lit "A"] false))
           (lit "B") [lit "A"; lit "B"]).
  simpl. now left.
Defined.

(** X10.  No header leads nowhere: a header in the answer to any query has at
    least one child when it is queried in turn. *)
Theorem header_never_empty (localeCompare : jsstring -> jsstring -> Z)
    (items : list CommandConfig) (element : option TreeItem)
    (h : TreeItem) :
  In h (getChildrenOf localeCompare items element) ->
  isGroupNode h = true ->
  getChildrenOf localeCompare items (Some h) <> [].
Proof.
  intros Hx Hg. apply query_result in Hx.
  destruct h as [c | l segs [|] | l]; try discriminate.
  - destruct Hx as [[= -> ->] [_ R]]. rewrite ungrouped_children.
    intros Hnil. apply map_eq_nil in Hnil.
    apply filter_nil_existsb in Hnil. unfold hasRootLevel in R. congruence.
  - destruct Hx as [_ [_ [c [rest [Hc Hp]]]]].
    now apply (@header_has_children localeCompare items c segs rest l).
Qed.

Lemma header_never_empty_witness :
  getChildrenOf ciCompare
    [cmd0 "x" (Some "A/B"%string); cmd0 "y" None]
    (Some (GroupNode (lit "A") [lit "A"] false))
  <> [].
Proof.
  apply (@header_never_empty ciCompare
           [cmd0 "x" (Some "A/B"%string); cmd0 "y" None] None).
  - simpl. right. now left.
  - reflexivity.
Defined.

(** ** Records added at the end of the configuration *)

Lemma addKey_extends ks s : exists extra, addKey ks s = ks ++ extra.
Proof.
  unfold addKey. destruct (existsb (str_eqb s) ks).
  - exists []. now rewrite app_nil_r.
  - now exists [s].
Qed.

Lemma childKeys_extends p items : forall acc,
  exists extra, childKeys p items acc = acc ++ extra.
Proof.
  unfold childKeys.
  induction items as [|c items IH]; intros acc; simpl.
  - exists []. now rewrite app_nil_r.
  - destruct (nextSegment p (pathOf c)) as [s|]; [|apply IH].
    destruct (addKey_extends acc s) as [e He].
    destruct (IH (addKey acc s)) as [extra E].
    exists (e ++ extra). now rewrite E, He, app_assoc.
Qed.

(** X11.  Records added after the others keep every group there was: the group
    keeps its commands, in place, with the new ones of its path after them,
    and keeps its subgroups, in the order it met them, with the new ones
    after them. *)
Theorem appended_records (items more : list CommandConfig)
    (p : list jsstring) (g : CommandGroupTree) :
  findGroup (buildGroupTree items) p = Some g ->
  exists g',
    findGroup (buildGroupTree (items ++ more)) p = Some g'
    /\ commands g'
       = commands g
         ++ filter (fun c => path_eqb p (parseGroupSegments (group c))) more
    /\ exists newKeys,
         map_keys (subgroups g') = map_keys (subgroups g) ++ newKeys.
Proof.
  intros Hf.
  destruct (findGroup (buildGroupTree (items ++ more)) p) as [g'|] eqn:Hf'.
  - exists g'. split; auto. split.
    + pose proof (cmdsAt_build items p) as E.
      pose proof (cmdsAt_build (items ++ more) p) as E'.
      unfold cmdsAt in E, E'. rewrite Hf in E. rewrite Hf' in E'.
      now rewrite E, E', filter_app.
    + pose proof (keysAt_build items p) as E.
      pose proof (keysAt_build (items ++ more) p) as E'.
      unfold keysAt in E, E'. rewrite Hf in E. rewrite Hf' in E'.
      rewrite E, E'. unfold childKeys at 1. rewrite fold_left_app.
      apply (childKeys_extends p more).
  - exfalso.
    assert (findGroup (buildGroupTree items) p <> None) as Hn by congruence.
    destruct p as [|s r]; [discriminate|].
    assert (s :: r <> []) as Hp by discriminate.
    destruct (@node_has_record items (s :: r) Hp Hn)
      as [c [rest [Hc Hr]]].
    apply (@findGroup_prefix (items ++ more) c (s :: r) rest) in Hf'; auto.
    apply in_or_app. now left.
Qed.

Lemma appended_records_witness :
  exists g',
    findGroup
      (buildGroupTree
         ([cmd0 "one" (Some "X"%string)]
          ++ [cmd0 "deep" (Some "X/Y"%string); cmd0 "two" (Some "X"%string)]))
      [lit "X"]
    = Some g'
    /\ commands g'
       = [cmd0 "one" (Some "X"%string)] ++ [cmd0 "two" (Some "X"%string)]
    /\ exists newKeys, map_keys (subgroups g') = [] ++ newKeys.
Proof.
  apply (@appended_records [cmd0 "one" (Some "X"%string)]
           [cmd0 "deep" (Some "X/Y"%string); cmd0 "two" (Some "X"%string)]
           [lit "X"]
           (mkTree (lit "X") [lit "X"] [] [cmd0 "one" (Some "X"%string)])).
  reflexivity.
Defined.

(** ** The order of the records and the order of the headers *)

Lemma sorted_perm_unique (A : Type) (compareFn : A -> A -> Z) :
  forall l1 l2,
    StronglySorted (precedes compareFn) l1 ->
    StronglySorted (precedes compareFn) l2 ->
    Permutation l1 l2 ->
    (forall a b, In a l1 -> In b l1 ->
                 (compareFn a b <= 0)%Z -> (compareFn b a <= 0)%Z -> a = b) ->
    l1 = l2.
Proof.
  induction l1 as [|a l1 IH]; intros l2 S1 S2 P Anti.
  - apply Permutation_nil in P. now subst.
  - destruct l2 as [|b l2].
    + apply Permutation_sym, Permutation_nil in P. discriminate.
    + inversion S1 as [|? ? S1' F1]; subst.
      inversion S2 as [|? ? S2' F2]; subst.
      assert (a = b) as ->.
      { assert (In a (b :: l2)) as Ha
          by (eapply Permutation_in; [exact P | now left]).
        assert (In b (a :: l1)) as Hb
          by (eapply Permutation_in;
              [apply Permutation_sym; exact P | now left]).
        destruct Ha as [Ha | Ha]; [now subst|].
        destruct Hb as [Hb | Hb]; [now subst|].
        rewrite Forall_forall in F1, F2.
        apply Anti; [now left | now right | apply F1, Hb | apply F2, Ha]. }
      f_equal. apply IH; auto.
      * now apply Permutation_cons_inv in P.
      * intros x y Hx Hy. apply Anti; now right.
Qed.

Lemma childKeys_perm p items items' :
  Permutation items items' ->
  Permutation (childKeys p items []) (childKeys p items' []).
Proof.
  intros P. apply NoDup_Permutation.
  - apply childKeys_NoDup. constructor.
  - apply childKeys_NoDup. constructor.
  - intros k. rewrite !childKeys_In.
    split; intros [[] | [c [Hc Hn]]]; right; exists c; split; auto.
    + eapply Permutation_in; eauto.
    + eapply Permutation_in; [apply Permutation_sym|]; eauto.
Qed.

Lemma existsb_perm (A : Type) (f : A -> bool) l l' :
  Permutation l l' -> existsb f l = existsb f l'.
Proof.
  intros P. induction P; simpl; try congruence.
  destruct (f x), (f y); reflexivity.
Qed.

(** X12.  Wherever the records stand in the input, the root query of an input
    with groups returns the same headers in the same order, as long as no
    two root-level group names compare as equal. *)
Theorem root_headers_order_free (localeCompare : jsstring -> jsstring -> Z)
    (items items' : list CommandConfig) :
  (forall a b, (localeCompare a b <= 0 \/ localeCompare b a <= 0)%Z) ->
  (forall a b c, (localeCompare a b <= 0 -> localeCompare b c <= 0
                  -> localeCompare a c <= 0)%Z) ->
  (forall a b, In a (childKeys [] items []) -> In b (childKeys [] items []) ->
     (localeCompare a b <= 0)%Z -> (localeCompare b a <= 0)%Z -> a = b) ->
  Permutation items items' ->
  (exists c, In c items /\ parseGroupSegments (group c) <> []) ->
  getChildrenOf localeCompare items None
  = getChildrenOf localeCompare items' None.
Proof.
  intros total trans anti P Hex.
  rewrite !root_children.
  unfold hasGrouped, hasRootLevel.
  rewrite <- (existsb_perm _ P), <- (existsb_perm _ P).
  apply hasGrouped_spec in Hex. unfold hasGrouped in Hex. rewrite Hex.
  f_equal. f_equal.
  apply sorted_perm_unique with (compareFn := localeCompare).
  - now apply sort_sorted.
  - now apply sort_sorted.
  - rewrite <- !sort_perm. now apply childKeys_perm.
  - intros a b Ha Hb. apply sort_In in Ha, Hb. now apply anti.
Qed.

Lemma root_headers_order_free_witness :
  getChildrenOf ciCompare
    [cmd0 "z" (Some "beta"%string); cmd0 "L" None;
     cmd0 "H" (Some "Alpha/x"%string)] None
  = getChildrenOf ciCompare
      [cmd0 "H" (Some "Alpha/x"%string); cmd0 "z" (Some "beta"%string);
       cmd0 "L" None] None.
Proof.
  apply (@root_headers_order_free ciCompare
           [cmd0 "z" (Some "beta"%string); cmd0 "L" None;
            cmd0 "H" (Some "Alpha/x"%string)]
           [cmd0 "H" (Some "Alpha/x"%string); cmd0 "z" (Some "beta"%string);
            cmd0 "L" None]
           ciCompare_total ciCompare_trans).
  - intros a b [<- | [<- | []]] [<- | [<- | []]]; simpl; intros; try lia;
      reflexivity.
  - apply Permutation_sym.
    apply (@Permutation_cons_app _ _ [_; _] [] _).
    apply Permutation_refl.
  - exists (cmd0 "z" (Some "beta"%string)). split; [now left | discriminate].
Defined.

(** ** The earlier revision *)

Lemma codeUnitCompare_total a : forall b,
  (codeUnitCompare a b <= 0 \/ codeUnitCompare b a <= 0)%Z.
Proof.
  induction a as [|x a IH]; intros [|y b]; simpl; try lia.
  rewrite (N.compare_antisym x y).
  destruct (x ?= y)%N; simpl; try lia. apply IH.
Qed.

Lemma codeUnitCompare_trans a : forall b c,
  (codeUnitCompare a b <= 0 -> codeUnitCompare b c <= 0
   -> codeUnitCompare a c <= 0)%Z.
Proof.
  induction a as [|x a IH]; intros [|y b] [|z c]; simpl; try lia.
  destruct (N.compare_spec x y) as [E1|L1|G1];
    destruct (N.compare_spec y z) as [E2|L2|G2];
    try lia; intros H1 H2.
  - rewrite E1, E2, N.compare_refl. eauto.
  - rewrite E1. now apply N.compare_lt_iff in L2 as ->.
  - rewrite <- E2. now apply N.compare_lt_iff in L1 as ->.
  - assert (x < z)%N as L by lia.
    now apply N.compare_lt_iff in L as ->.
Qed.

Lemma codeUnitCompare_eq a : forall b, codeUnitCompare a b = 0%Z -> a = b.
Proof.
  induction a as [|x a IH]; intros [|y b]; simpl; try discriminate; auto.
  destruct (N.compare_spec x y) as [E|L|G]; try discriminate.
  intros H. f_equal; auto.
Qed.

Lemma sorted_strict (A : Type) (compareFn : A -> A -> Z) (l : list A) :
  (forall a b, compareFn a b = 0%Z -> a = b) ->
  StronglySorted (precedes compareFn) l -> NoDup l ->
  StronglySorted (fun a b => (compareFn a b < 0)%Z) l.
Proof.
  intros Heq S. induction S as [|a l S IH F]; intros N; constructor.
  - apply IH. now inversion N.
  - inversion N as [|? ? Hnot _]; subst.
    rewrite Forall_forall in *. intros b Hb.
    pose proof (F b Hb) as Hle. unfold precedes in Hle.
    destruct (Z.eq_dec (compareFn a b) 0) as [E|E]; [|lia].
    apply Heq in E. subst. contradiction.
Qed.

Lemma truthy_spec s : Legacy.truthy s = true <-> s <> [].
Proof.
  unfold Legacy.truthy. destruct s as [|c s].
  - split; [discriminate | intros H; now elim H].
  - split; [discriminate | reflexivity].
Qed.

Lemma legacy_keys_In items : forall acc k,
  In k
    (fold_left
       (fun ks c =>
          let g := Legacy.trimmedGroup c in
          if Legacy.truthy g
          then (if existsb (str_eqb g) ks then ks else ks ++ [g])
          else ks)
       items acc)
  <-> In k acc
      \/ (k <> [] /\ exists c, In c items /\ Legacy.trimmedGroup c = k).
Proof.
  induction items as [|c items IH]; intros acc k; simpl.
  - split; [auto | intros [H | [_ [c [[] _]]]]; auto].
  - rewrite IH. destruct (Legacy.truthy (Legacy.trimmedGroup c)) eqn:T.
    + apply truthy_spec in T.
      fold (addKey acc (Legacy.trimmedGroup c)). rewrite addKey_In. split.
      * intros [[H | ->] | [Hk [c' [H1 H2]]]]; eauto 8.
      * intros [H | [Hk [c' [[<- | H1] H2]]]]; eauto 8.
    + split.
      * intros [H | [Hk [c' [H1 H2]]]]; eauto 8.
      * intros [H | [Hk [c' [[<- | H1] H2]]]]; eauto 8.
        subst k. apply truthy_spec in Hk. congruence.
Qed.

Lemma legacy_keys_NoDup items : forall acc,
  NoDup acc ->
  NoDup
    (fold_left
       (fun ks c =>
          let g := Legacy.trimmedGroup c in
          if Legacy.truthy g
          then (if existsb (str_eqb g) ks then ks else ks ++ [g])
          else ks)
       items acc).
Proof.
  induction items as [|c items IH]; intros acc H; simpl; auto.
  apply IH. destruct (Legacy.truthy (Legacy.trimmedGroup c)); auto.
  now apply (addKey_NoDup (Legacy.trimmedGroup c)).
Qed.

Lemma legacy_root_eq (items : list CommandConfig) :
  Legacy.hasGroup items = true ->
  Legacy.getChildren items None
  = (if existsb (fun i => negb (Legacy.truthy (Legacy.trimmedGroup i))) items
     then [Legacy.GroupNode (lit "Ungrouped")] else [])
    ++ List.map Legacy.GroupNode
         (sort codeUnitCompare (Legacy.groupKeys items)).
Proof.
  intros H. unfold Legacy.getChildren. rewrite H. cbn [negb].
  pose proof (filter_nil_existsb
                (fun i => negb (Legacy.truthy (Legacy.trimmedGroup i)))
                items) as Hf.
  destruct (existsb (fun i => negb (Legacy.truthy (Legacy.trimmedGroup i)))
              items) eqn:E.
  - destruct (filter
                (fun i => negb (Legacy.truthy (Legacy.trimmedGroup i)))
                items) eqn:F; [|reflexivity].
    destruct Hf as [Hf _]. now specialize (Hf eq_refl).
  - destruct Hf as [_ Hf]. now rewrite (Hf eq_refl).
Qed.

Lemma legacy_keys_spec (items : list CommandConfig) (k : jsstring) :
  In k (sort codeUnitCompare (Legacy.groupKeys items))
  <-> k <> [] /\ exists c, In c items /\ Legacy.trimmedGroup c = k.
Proof.
  rewrite sort_In. unfold Legacy.groupKeys. rewrite legacy_keys_In.
  simpl. tauto.
Qed.

(** X14.  With at least one group, the root of the earlier revision lists one
    header per distinct trimmed group string, in strictly increasing order
    of code units, after the header "Ungrouped", which is there exactly when
    some record has no group. *)
Theorem legacy_root_headers (items : list CommandConfig) :
  Legacy.hasGroup items = true ->
  let keys := sort codeUnitCompare (Legacy.groupKeys items) in
  Legacy.getChildren items None
  = (if existsb (fun i => negb (Legacy.truthy (Legacy.trimmedGroup i))) items
     then [Legacy.GroupNode (lit "Ungrouped")] else [])
    ++ List.map Legacy.GroupNode keys
  /\ StronglySorted (fun a b => (codeUnitCompare a b < 0)%Z) keys
  /\ (forall k, In k keys
                <-> k <> []
                    /\ exists c, In c items /\ Legacy.trimmedGroup c = k).
Proof.
  intros H keys. split; [|split].
  - now apply legacy_root_eq.
  - apply sorted_strict.
    + apply codeUnitCompare_eq.
    + apply sort_sorted;
        [apply codeUnitCompare_total | apply codeUnitCompare_trans].
    + eapply Permutation_NoDup; [apply sort_perm|].
      apply legacy_keys_NoDup. constructor.
  - intros k. apply legacy_keys_spec.
Qed.

Lemma legacy_root_headers_witness :
  Legacy.getChildren
    [cmd0 "z" (Some "b"%string); cmd0 "L" None; cmd0 "H" (Some "a/x "%string);
     cmd0 "K" (Some "B"%string)] None
  = [Legacy.GroupNode (lit "Ungrouped"); Legacy.GroupNode (lit "B");
     Legacy.GroupNode (lit "a/x"); Legacy.GroupNode (lit "b")].
Proof.
  apply (@legacy_root_headers
           [cmd0 "z" (Some "b"%string); cmd0 "L" None;
            cmd0 "H" (Some "a/x "%string); cmd0 "K" (Some "B"%string)]).
  reflexivity.
Defined.

(** X15.  In the earlier revision with at least one group, a record of the input
    is found under the header of its trimmed group, or under "Ungrouped"
    when it has none, and under no header of another label; the root lists
    that header and no leaf. *)
Theorem legacy_round_trip (items : list CommandConfig) (c : CommandConfig) :
  In c items -> Legacy.hasGroup items = true ->
  In (Legacy.GroupNode (legacyHeaderOf c)) (Legacy.getChildren items None)
  /\ In (Legacy.CommandNode c)
        (Legacy.getChildren items
           (Some (Legacy.GroupNode (legacyHeaderOf c))))
  /\ (forall l,
        In (Legacy.CommandNode c)
           (Legacy.getChildren items (Some (Legacy.GroupNode l))) ->
        l = legacyHeaderOf c)
  /\ ~ In (Legacy.CommandNode c) (Legacy.getChildren items None).
Proof.
  intros Hc H.
  pose proof (legacy_root_eq items H) as E.
  pose proof (legacy_keys_spec items) as K.
  split; [|split; [|split]].
  - rewrite E. unfold legacyHeaderOf.
    destruct (Legacy.trimmedGroup c) as [|x t] eqn:T; simpl orElse.
    + assert (existsb
                (fun i => negb (Legacy.truthy (Legacy.trimmedGroup i))) items
              = true) as ->.
      { apply existsb_exists. exists c. split; auto. now rewrite T. }
      now left.
    + apply in_or_app. right. apply in_map. apply K.
      split; [discriminate | eauto].
  - simpl. apply in_map. apply filter_In. split; auto.
    apply str_eqb_refl.
  - simpl. intros l Hl. apply in_map_iff in Hl.
    destruct Hl as [c' [[= ->] Hf]]. apply filter_In in Hf.
    destruct Hf as [_ Hf]. apply str_eqb_eq in Hf. now symmetry.
  - rewrite E. intros Hin. apply in_app_or in Hin. destruct Hin as [Hin|Hin].
    + destruct (existsb _ items); [|destruct Hin].
      destruct Hin as [[=] | []].
    + apply in_map_iff in Hin. destruct Hin as [k [[=] _]].
Qed.

Lemma legacy_round_trip_witness :
  In (Legacy.CommandNode (cmd0 "x" (Some " A/B "%string)))
     (Legacy.getChildren
        [cmd0 "x" (Some " A/B "%string); cmd0 "y" None]
        (Some (Legacy.GroupNode (lit "A/B")))).
Proof.
  apply (@legacy_round_trip
           [cmd0 "x" (Some " A/B "%string); cmd0 "y" None]
           (cmd0 "x" (Some " A/B "%string))).
  - now left.
  - reflexivity.
Defined.

(** ** The two revisions on groups without a slash *)

Lemma slashfree_path c :
  (forall g, group c = Some g -> noSlash g) ->
  pathOf c
  = match Legacy.trimmedGroup c with
    | [] => []
    | x :: t => [x :: t]
    end.
Proof.
  intros H. unfold pathOf, Legacy.trimmedGroup.
  destruct (group c) as [g|]; [|reflexivity].
  rewrite parse_some, (@split_nosep SLASH g (H g eq_refl)). simpl.
  now destruct (trim g).
Qed.

Lemma fold_left_ext_in (A B : Type) (f g : A -> B -> A) (l : list B) :
  (forall a x, In x l -> f a x = g a x) ->
  forall a, fold_left f l a = fold_left g l a.
Proof.
  induction l as [|x l IH]; intros H a; simpl; auto.
  rewrite H by now left. apply IH. intros a' y Hy. apply H. now right.
Qed.

Lemma existsb_ext_in (A : Type) (f g : A -> bool) (l : list A) :
  (forall x, In x l -> f x = g x) -> existsb f l = existsb g l.
Proof.
  induction l as [|x l IH]; intros H; simpl; auto.
  rewrite H by now left. f_equal. apply IH. intros y Hy. apply H. now right.
Qed.

Lemma str_eqb_sym a b : str_eqb a b = str_eqb b a.
Proof.
  destruct (str_eqb a b) eqn:E.
  - apply str_eqb_eq in E. subst. symmetry. apply str_eqb_refl.
  - apply str_eqb_neq in E. symmetry. apply str_eqb_neq. congruence.
Qed.

Lemma leafRecords_leaves l : leafRecords (List.map CommandNode l) = l.
Proof. induction l; simpl; congruence. Qed.

Lemma leafRecords_headers (f : jsstring -> TreeItem) l :
  (forall k, isGroupNode (f k) = true) -> leafRecords (List.map f l) = [].
Proof.
  intros H. induction l as [|k l IH]; simpl; auto.
  specialize (H k). destruct (f k); try discriminate. exact IH.
Qed.

Lemma headerLabels_leaves l : headerLabels (List.map CommandNode l) = [].
Proof. induction l; simpl; auto. Qed.

Lemma headerLabels_headers (f : jsstring -> list jsstring) l :
  headerLabels (List.map (fun k => GroupNode k (f k) false) l) = l.
Proof. induction l; simpl; congruence. Qed.

Lemma legacyLeafRecords_leaves l :
  legacyLeafRecords (List.map Legacy.CommandNode l) = l.
Proof. induction l; simpl; congruence. Qed.

Lemma legacyLeafRecords_headers l :
  legacyLeafRecords (List.map Legacy.GroupNode l) = [].
Proof. induction l; simpl; auto. Qed.

Lemma legacyHeaderLabels_leaves l :
  legacyHeaderLabels (List.map Legacy.CommandNode l) = [].
Proof. induction l; simpl; auto. Qed.

Lemma legacyHeaderLabels_headers l :
  legacyHeaderLabels (List.map Legacy.GroupNode l) = l.
Proof. induction l; simpl; congruence. Qed.

(** X16.  When no group string holds a slash, the two revisions list the
    same records under the same labels.  At the root both return the leaves
    of the same records in the same order and headers with the same labels,
    though not in the same order, the one sorting with the comparator and
    the other by code units.  Under the header of a group not named
    "Ungrouped" both return no header and the leaves of the same records in
    the same order; so they do under the header for the records without
    group when no group is named "Ungrouped".  The leaves of a record have
    the same tooltip in both only when its description is its insert
    text. *)
Theorem revisions_same_records (localeCompare : jsstring -> jsstring -> Z)
    (items : list CommandConfig) :
  (forall c g, In c items -> group c = Some g -> noSlash g) ->
  leafRecords (getChildrenOf localeCompare items None)
  = legacyLeafRecords (Legacy.getChildren items None)
  /\ Permutation (headerLabels (getChildrenOf localeCompare items None))
       (legacyHeaderLabels (Legacy.getChildren items None))
  /\ (forall k, k <> [] -> k <> lit "Ungrouped" ->
        let answer :=
          getChildrenOf localeCompare items (Some (GroupNode k [k] false)) in
        let earlier :=
          Legacy.getChildren items (Some (Legacy.GroupNode k)) in
        leafRecords answer = legacyLeafRecords earlier
        /\ headerLabels answer = [] /\ legacyHeaderLabels earlier = [])
  /\ ((forall c, In c items -> Legacy.trimmedGroup c <> lit "Ungrouped") ->
      leafRecords
        (getChildrenOf localeCompare items
           (Some (GroupNode UNGROUPED_LABEL [] true)))
      = legacyLeafRecords
          (Legacy.getChildren items
             (Some (Legacy.GroupNode (lit "Ungrouped")))))
  /\ (forall c,
        itemTooltip (CommandNode c) = legacyTooltip (Legacy.CommandNode c)
        <-> description c = Some (insertText c)).
Proof.
  intros Hs.
  assert (forall c, In c items ->
            pathOf c = match Legacy.trimmedGroup c with
                       | [] => []
                       | x :: t => [x :: t]
                       end) as HP.
  { intros c Hc. apply slashfree_path. intros g. now apply Hs. }
  assert (Legacy.hasGroup items = hasGrouped items) as HG.
  { unfold Legacy.hasGroup, hasGrouped. apply existsb_ext_in.
    intros c Hc. unfold atPath. rewrite (HP c Hc).
    now destruct (Legacy.trimmedGroup c). }
  assert (Legacy.groupKeys items = childKeys [] items []) as HK.
  { unfold Legacy.groupKeys, childKeys. apply fold_left_ext_in.
    intros ks c Hc. rewrite (HP c Hc).
    now destruct (Legacy.trimmedGroup c). }
  assert (existsb (fun i => negb (Legacy.truthy (Legacy.trimmedGroup i)))
            items = hasRootLevel items) as HU.
  { unfold hasRootLevel. apply existsb_ext_in.
    intros c Hc. unfold atPath. rewrite (HP c Hc).
    now destruct (Legacy.trimmedGroup c). }
  assert (forall k, k <> [] -> k <> lit "Ungrouped" ->
            filter (atPath [k]) items
            = filter (fun i => str_eqb (orElse (Legacy.trimmedGroup i)
                                               (lit "Ungrouped")) k)
                     items) as HF.
  { intros k Hk Hu. apply filter_ext_in.
    intros c Hc. unfold atPath. rewrite (HP c Hc).
    destruct (Legacy.trimmedGroup c) as [|x t]; simpl orElse.
    - destruct k; [contradiction|]. simpl path_eqb.
      symmetry. apply str_eqb_neq. congruence.
    - simpl path_eqb. rewrite andb_true_r. apply str_eqb_sym. }
  assert (Legacy.getChildren items None
          = if hasGrouped items
            then (if hasRootLevel items
                  then [Legacy.GroupNode (lit "Ungrouped")] else [])
                 ++ List.map Legacy.GroupNode
                      (sort codeUnitCompare (childKeys [] items []))
            else List.map Legacy.CommandNode items) as HR.
  { destruct (hasGrouped items) eqn:G.
    - rewrite legacy_root_eq by congruence. now rewrite HU, HK.
    - unfold Legacy.getChildren. now rewrite HG. }
  split; [|split; [|split; [|split]]].
  - rewrite root_children, HR. destruct (hasGrouped items).
    + unfold leafRecords, legacyLeafRecords. rewrite !flat_map_app.
      fold (leafRecords
              (List.map (fun k => headerFor [k])
                 (sort localeCompare (childKeys [] items [])))).
      fold (legacyLeafRecords
              (List.map Legacy.GroupNode
                 (sort codeUnitCompare (childKeys [] items [])))).
      rewrite leafRecords_headers by reflexivity.
      rewrite legacyLeafRecords_headers.
      now destruct (hasRootLevel items).
    + now rewrite leafRecords_leaves, legacyLeafRecords_leaves.
  - rewrite root_children, HR. destruct (hasGrouped items).
    + unfold headerLabels, legacyHeaderLabels. rewrite !flat_map_app.
      apply Permutation_app.
      * now destruct (hasRootLevel items).
      * fold (headerLabels
                (List.map (fun k => headerFor [k])
                   (sort localeCompare (childKeys [] items [])))).
        fold (legacyHeaderLabels
                (List.map Legacy.GroupNode
                   (sort codeUnitCompare (childKeys [] items [])))).
        rewrite (headerLabels_headers (fun k => [k])).
        rewrite legacyHeaderLabels_headers.
        rewrite <- !sort_perm. reflexivity.
    + now rewrite headerLabels_leaves, legacyHeaderLabels_leaves.
  - intros k Hk Hu answer earlier.
    assert (childKeys [k] items [] = []) as HC.
    { destruct (childKeys [k] items []) as [|s ks] eqn:E; auto.
      assert (In s (childKeys [k] items [])) as Hin by (rewrite E; now left).
      apply childKeys_In in Hin. destruct Hin as [[] | [c [Hc Hn]]].
      rewrite (HP c Hc) in Hn.
      destruct (Legacy.trimmedGroup c) as [|x t]; simpl in Hn;
        [discriminate|].
      destruct (str_eqb k (x :: t)); discriminate. }
    assert (answer = List.map CommandNode (filter (atPath [k]) items)) as ->.
    { unfold answer. rewrite group_children, HC.
      destruct (findGroup (buildGroupTree items) [k]) eqn:Hf; [reflexivity|].
      pose proof (cmdsAt_build items [k]) as E. unfold cmdsAt in E.
      rewrite Hf in E. now rewrite <- E. }
    unfold earlier. simpl Legacy.getChildren.
    rewrite leafRecords_leaves, legacyLeafRecords_leaves.
    rewrite headerLabels_leaves, legacyHeaderLabels_leaves.
    repeat split. now apply HF.
  - intros Hn. rewrite ungrouped_children. simpl Legacy.getChildren.
    rewrite leafRecords_leaves, legacyLeafRecords_leaves.
    apply filter_ext_in. intros c Hc. unfold atPath. rewrite (HP c Hc).
    specialize (Hn c Hc).
    destruct (Legacy.trimmedGroup c) as [|x t]; simpl orElse.
    + reflexivity.
    + simpl path_eqb. symmetry. now apply str_eqb_neq.
  - intros c. simpl. tauto.
Qed.

Lemma revisions_same_records_witness :
  Permutation
    (headerLabels
       (getChildrenOf ciCompare
          [cmd0 "x" (Some " a "%string); cmd0 "L" None;
           cmd0 "y" (Some "B"%string)] None))
    (legacyHeaderLabels
       (Legacy.getChildren
          [cmd0 "x" (Some " a "%string); cmd0 "L" None;
           cmd0 "y" (Some "B"%string)] None)).
Proof.
  apply (@revisions_same_records ciCompare
           [cmd0 "x" (Some " a "%string); cmd0 "L" None;
            cmd0 "y" (Some "B"%string)]).
  intros c g [<- | [<- | [<- | []]]]; intros [= <-]; intros H;
    repeat (destruct H as [H | H]; [discriminate|]); exact H.
Defined.

(** ** Headers whose labels compare as equal *)

Section Stability.
Variable A : Type.
Variable compareFn : A -> A -> Z.

Lemma sort_insert_In x y l :
  In y (sort_insert compareFn x l) <-> y = x \/ In y l.
Proof.
  split.
  - intros H. apply (Permutation_in _ (Permutation_sym (sort_insert_perm compareFn x l))) in H.
    destruct H; auto.
  - intros H. apply (Permutation_in _ (sort_insert_perm compareFn x l)).
    destruct H; [now left | now right].
Qed.

Lemma insert_before_new x y l :
  In y l -> (compareFn x y <= 0)%Z ->
  before x y (sort_insert compareFn x l).
Proof.
  induction l as [|z l IH]; intros Hy Hc; [destruct Hy|]. simpl.
  destruct (compareFn x z <=? 0)%Z eqn:E.
  - now apply before_here.
  - apply before_later. destruct Hy as [-> | Hy]; auto.
    apply Z.leb_gt in E. lia.
Qed.

Lemma insert_before_old x a b l :
  before a b l -> before a b (sort_insert compareFn x l).
Proof.
  induction 1 as [l Hb | z l Hab IH]; simpl.
  - destruct (compareFn x a <=? 0)%Z.
    + now apply before_later, before_here.
    + apply before_here. apply sort_insert_In. now right.
  - destruct (compareFn x z <=? 0)%Z.
    + now apply before_later, before_later.
    + now apply before_later.
Qed.

(** The sort never exchanges two elements that the comparator allows in
    the order they come in. *)
Lemma sort_before a b l :
  before a b l -> (compareFn a b <= 0)%Z -> before a b (sort compareFn l).
Proof.
  induction 1 as [l Hb | z l Hab IH]; intros Hc; simpl.
  - apply insert_before_new; auto. now apply sort_In.
  - apply insert_before_old. now apply IH.
Qed.
End Stability.

Lemma before_map (A B : Type) (f : A -> B) a b l :
  before a b l -> before (f a) (f b) (List.map f l).
Proof.
  induction 1 as [l Hb | z l Hab IH]; simpl.
  - apply before_here. now apply in_map.
  - now apply before_later.
Qed.

Lemma before_app_l (A : Type) (a b : A) pre l :
  before a b l -> before a b (pre ++ l).
Proof.
  intros H. induction pre; simpl; auto. now apply before_later.
Qed.

Lemma before_app_r (A : Type) (a b : A) l post :
  before a b l -> before a b (l ++ post).
Proof.
  induction 1 as [l Hb | z l Hab IH]; simpl.
  - apply before_here. apply in_or_app. now left.
  - now apply before_later.
Qed.

(** X13.  Ties are broken by the input: when, below a node, the group [a] is met
    before the group [b] and the comparator does not put [a] after [b], as
    when their labels compare as equal, the header of [a] is listed before
    the header of [b]; this holds for any comparator. *)
Theorem headers_keep_input_order
    (localeCompare : jsstring -> jsstring -> Z)
    (items : list CommandConfig) (p : list jsstring) (a b : jsstring) :
  before a b (childKeys p items []) ->
  (localeCompare a b <= 0)%Z ->
  (forall labelText g,
     findGroup (buildGroupTree items) p = Some g ->
     before (GroupNode a (p ++ [a]) false) (GroupNode b (p ++ [b]) false)
       (getChildrenOf localeCompare items
          (Some (GroupNode labelText p false))))
  /\ (p = [] ->
      before (GroupNode a [a] false) (GroupNode b [b] false)
        (getChildrenOf localeCompare items None)).
Proof.
  intros Hk Hc.
  pose proof (sort_before localeCompare Hk Hc) as Hs.
  split.
  - intros l g Hf. rewrite group_children, Hf.
    apply before_app_r. rewrite <- !headerFor_snoc.
    now apply (before_map (fun k => headerFor (p ++ [k]))).
  - intros ->. rewrite root_children.
    assert (hasGrouped items = true) as ->.
    { destruct (hasGrouped items) eqn:G; auto.
      apply rootKeys_nil in G. rewrite G in Hk. inversion Hk. }
    apply before_app_l.
    now apply (before_map (fun k => GroupNode k [k] false)).
Qed.

Lemma headers_keep_input_order_witness :
  before (GroupNode (lit "alpha") [lit "alpha"] false)
         (GroupNode (lit "Alpha") [lit "Alpha"] false)
    (getChildrenOf ciCompare
       [cmd0 "z" (Some "beta"%string); cmd0 "K" (Some "alpha"%string);
        cmd0 "H" (Some "Alpha/x"%string)] None).
Proof.
  apply (@headers_keep_input_order ciCompare
           [cmd0 "z" (Some "beta"%string); cmd0 "K" (Some "alpha"%string);
            cmd0 "H" (Some "Alpha/x"%string)]
           [] (lit "alpha") (lit "Alpha")).
  - apply before_later. apply before_here. now left.
  - simpl. lia.
  - reflexivity.
Defined.
